(** * JSS rule registry and DOM renderer: a shallow embedding

    This development embeds [src/RuleList.js] (the rule registry) and the
    DOM renderer (style-container adapter, insertion-point resolver and
    selector extraction) as executable Rocq functions and proves
    properties of them.

    JavaScript values are modelled as follows: strings are [string]
    (lists of one-byte code units), numbers used as array indices are [Z],
    objects used as dictionaries are [gmap string _], arrays are lists,
    objects with identity (rules, native rules, DOM nodes) carry a
    numeric identity field and [===] on them compares that field. *)

From Stdlib Require Import ZArith String Ascii List Lia Bool.
From stdpp Require Import base option list gmap strings fin_maps.

Open Scope string_scope.
Open Scope Z_scope.

(* ===================================================================== *)
(** ** JavaScript primitives used by the sources *)
(* ===================================================================== *)

Module JS.

(** Truthiness of a string: only the empty string is falsy. *)
Definition truthy (s : string) : bool :=
  match s with
  | EmptyString => false
  | String _ _ => true
  end.

(** Truthiness of a possibly-undefined string. *)
Definition truthy_opt (o : option string) : bool :=
  match o with
  | None => false
  | Some s => truthy s
  end.

(** A possibly-undefined string converted to a string, as a template
    literal or a property access does. *)
Definition to_str (o : option string) : string :=
  match o with
  | Some s => s
  | None => "undefined"
  end.

(** The text a template literal makes of a built-in function. *)
Definition native_function (fname : string) : string :=
  "function " +:+ fname +:+ "() { [native code] }".

(** The members that a plain object inherits from [Object.prototype], by
    name, each as the text a template literal makes of it: the methods are
    functions, [constructor] is the function [Object], and [__proto__] is
    [Object.prototype] itself.  All of them are truthy. *)
Definition Object_prototype (name : string) : option string :=
  if String.eqb name "constructor" then Some (native_function "Object")
  else if String.eqb name "__proto__" then Some "[object Object]"
  else if existsb (String.eqb name)
            ["toString"; "toLocaleString"; "valueOf"; "hasOwnProperty";
             "isPrototypeOf"; "propertyIsEnumerable"; "__defineGetter__";
             "__defineSetter__"; "__lookupGetter__"; "__lookupSetter__"]
       then Some (native_function name)
  else None.

(** [obj[name]] on a plain object with the own properties [own]: the own
    property when there is one, else the inherited member, else
    undefined. *)
Definition get_property (own : gmap string string) (name : string) : option string :=
  match own !! name with
  | Some v => Some v
  | None => Object_prototype name
  end.

(** The same read on a plain object whose values are strings or
    undefined. *)
Definition get_member (own : gmap string (option string)) (name : string)
    : option string :=
  match own !! name with
  | Some v => v
  | None => Object_prototype name
  end.

(** [obj[name] = v] on a plain object, for a value that is a string or
    undefined.  Without an own property of that name, [__proto__] is the
    accessor inherited from [Object.prototype], whose setter ignores such
    a value: nothing is written. *)
Definition set_property {V : Type} (name : string) (v : V) (own : gmap string V)
    : gmap string V :=
  match own !! name with
  | Some _ => <[name := v]> own
  | None => if String.eqb name "__proto__" then own else <[name := v]> own
  end.

(** The line feed, written ['\n'] in the sources. *)
Definition LF : string := String (ascii_of_nat 10) EmptyString.

(** The carriage return, written ['\r'] in the sources. *)
Definition CR : string := String (ascii_of_nat 13) EmptyString.

(** The double quote. *)
Definition QUOTE : string := String (ascii_of_nat 34) EmptyString.

(** [String.prototype.startsWith], used to define [indexOf]. *)
Fixpoint starts_with (pat s : string) : bool :=
  match pat, s with
  | EmptyString, _ => true
  | String _ _, EmptyString => false
  | String a pat', String b s' => Ascii.eqb a b && starts_with pat' s'
  end.

(** Position of the first occurrence of [pat] in [s], counting from [k]. *)
Fixpoint index_from (k : Z) (pat s : string) : Z :=
  if starts_with pat s then k
  else match s with
       | EmptyString => -1
       | String _ s' => index_from (k + 1) pat s'
       end.

(** [String.prototype.indexOf]: first position of [pat], or [-1]. *)
Definition indexOf (s pat : string) : Z := index_from 0 pat s.

Fixpoint str_drop (n : nat) (s : string) : string :=
  match n, s with
  | O, _ => s
  | S n', String _ s' => str_drop n' s'
  | S _, EmptyString => EmptyString
  end.

Fixpoint str_take (n : nat) (s : string) : string :=
  match n, s with
  | O, _ => EmptyString
  | S n', String c s' => String c (str_take n' s')
  | S _, EmptyString => EmptyString
  end.

(** [String.prototype.substr(start, length)]: a negative [start] counts
    from the end, and the result has at most [length] characters. *)
Definition substr (s : string) (start len : Z) : string :=
  let size := Z.of_nat (String.length s) in
  let from := if start <? 0 then Z.max (size + start) 0 else Z.min start size in
  let count := Z.min (Z.max len 0) (size - from) in
  str_take (Z.to_nat count) (str_drop (Z.to_nat from) s).

(** White space removed by [String.prototype.trim] (one-byte code units). *)
Definition is_space (c : ascii) : bool :=
  let n := nat_of_ascii c in
  (Nat.eqb n 9 || Nat.eqb n 10 || Nat.eqb n 11 || Nat.eqb n 12
   || Nat.eqb n 13 || Nat.eqb n 32 || Nat.eqb n 160)%bool.

Fixpoint trim_start (s : string) : string :=
  match s with
  | EmptyString => EmptyString
  | String c s' => if is_space c then trim_start s' else s
  end.

Fixpoint trim_end (s : string) : string :=
  match s with
  | EmptyString => EmptyString
  | String c s' =>
      match trim_end s' with
      | EmptyString => if is_space c then EmptyString else String c EmptyString
      | t => String c t
      end
  end.

(** [String.prototype.trim]. *)
Definition trim (s : string) : string := trim_end (trim_start s).

Section Arrays.
Context {A : Type}.

(** [Array.prototype.splice(start, deleteCount, ...items)], returning the
    array as it is after the call.  A negative [start] counts from the
    end; [start] beyond the end is clamped to the length. *)
Definition splice (l : list A) (start deleteCount : Z) (items : list A) : list A :=
  let len := Z.of_nat (length l) in
  let from := if start <? 0 then Z.max (len + start) 0 else Z.min start len in
  let count := Z.min (Z.max deleteCount 0) (len - from) in
  (take (Z.to_nat from) l ++ items ++ drop (Z.to_nat (from + count)) l)%list.

(** [Array.prototype.slice(0)]: a fresh array with the same elements. *)
Definition slice0 (l : list A) : list A := drop 0 l.

(** Position of the first element satisfying [same], counting from [k];
    [-1] when there is none. *)
Fixpoint find_index_from (same : A -> bool) (k : Z) (l : list A) : Z :=
  match l with
  | [] => -1
  | x :: l' => if same x then k else find_index_from same (k + 1) l'
  end.

(** [Array.prototype.forEach] on an array that lives in the state [St]
    and is read through [arr].  The length is read once, before the
    first call; at each position the array is read again, and a position
    that no longer exists is skipped.  The second component of the
    result records the arguments of the calls made, in order. *)
Fixpoint forEach_from {St : Type} (arr : St -> list A) (f : A -> St -> St)
    (k : nat) (todo : nat) (s : St) : St * list A :=
  match todo with
  | O => (s, [])
  | S todo' =>
      match arr s !! k with
      | Some x =>
          let '(s', calls) := forEach_from arr f (S k) todo' (f x s) in
          (s', x :: calls)
      | None => forEach_from arr f (S k) todo' s
      end
  end.

Definition forEach {St : Type} (arr : St -> list A) (f : A -> St -> St) (s : St)
    : St * list A :=
  forEach_from arr f 0 (length (arr s)) s.
End Arrays.

End JS.

(* ===================================================================== *)
(** ** Native (CSSOM) rules and selector extraction *)
(* ===================================================================== *)

Module NativeRule.

(** A rule materialized by the native engine.  [name] is absent in the
    engines that have no [rule.name] on keyframes rules. *)
Record CSSOMRule := {
  cid : nat;
  type : Z;
  selectorText : string;
  name : option string;
  cssText : string
}.

(** The native engine: the rules it parses out of a style element's text,
    and the rule it parses out of one rule's text (or its refusal). *)
Record Engine := {
  parseSheet : string -> list CSSOMRule;
  parseRule : string -> option CSSOMRule
}.

Definition extractSelector (cssText : string) (from : Z) : string :=
  JS.substr cssText from (JS.indexOf cssText "{" - 1).

Definition STYLE_RULE : Z := 1.
Definition KEYFRAMES_RULE : Z := 7.

(** Get the selector. *)
Definition getSelector (cssRule : CSSOMRule) : string :=
  if type cssRule =? STYLE_RULE then selectorText cssRule
  else if type cssRule =? KEYFRAMES_RULE then
    match name cssRule with
    | Some n =>
        if JS.truthy n then "@keyframes " +:+ n
        else "@" +:+ extractSelector (cssText cssRule)
                       (JS.indexOf (cssText cssRule) "keyframes")
    | None =>
        "@" +:+ extractSelector (cssText cssRule)
                  (JS.indexOf (cssText cssRule) "keyframes")
    end
  else extractSelector (cssText cssRule) 0.

(** The map from engine-normalized selectors to the original ones, built by
    writing each selector into a scratch style element and reading it
    back.  [None] is the [TypeError] of reading a rule the engine did not
    produce.  The scratch element is appended to the head and removed
    again; the document is the same afterwards.  The map is a plain
    object, written by assignment. *)
Definition getUnescapedSelectorsMap {R : Type} (selector : R -> option string)
    (eng : Engine) (rules : list R) : option (gmap string (option string)) :=
  fold_left
    (fun acc rule =>
       match acc with
       | None => None
       | Some m =>
           match parseSheet eng (JS.to_str (selector rule) +:+ " {}") with
           | c :: _ => Some (JS.set_property (getSelector c) (selector rule) m)
           | [] => None
           end
       end)
    rules (Some ∅).

End NativeRule.

(* ===================================================================== *)
(** ** The rule registry, [src/RuleList.js] *)
(* ===================================================================== *)

Module RuleList.
Import NativeRule.

Record ToCssOptions := { indent : option Z }.

(** An abstract rule.  [rid] is the identity of the rule object,
    [isStyleRule] is [rule instanceof StyleRule], [selector] is present
    for style rules only, and [toCss] is the rule's own [toString]. *)
Record Rule := {
  rid : nat;
  key : string;
  isStyleRule : bool;
  selector : option string;
  toCss : option ToCssOptions -> string
}.

(** The style declaration handed to [add]: whether the plugin pipeline
    turns it into a style rule, and the text the rule serializes to. *)
Record JssStyle := {
  styleVariant : bool;
  body : option ToCssOptions -> string
}.

(** The options of [add] that [add] itself reads. *)
Record RuleOptions := {
  opt_selector : option string;
  opt_index : option Z
}.

(** The options of the registry: the class-name generator, the
    escaping switch, and the native engine behind [sheet.renderer]
    (the rules it parses out of a text). *)
Record RuleListOptions := {
  generateClassName : Rule -> string;
  supportEscaping : bool;
  engine : Engine
}.

(** The registry.  [map] holds every rule under its key and, for style
    rules, under its selector as well; [index] is the ordered sequence;
    [classes] is the shared class-name map; [renderable] is the
    [renderable] attribute of the rule objects, by rule identity;
    [nextId] is the identity the next created rule object gets.  [map],
    [raw] and [classes] hold the own properties of the three objects. *)
Record RuleList := {
  map : gmap string Rule;
  raw : gmap string JssStyle;
  index : list Rule;
  options : RuleListOptions;
  classes : gmap string string;
  renderable : gmap nat CSSOMRule;
  nextId : nat
}.

Definition constructor (o : RuleListOptions) (cls : gmap string string) : RuleList :=
  {| map := ∅; raw := ∅; index := []; options := o; classes := cls;
     renderable := ∅; nextId := 0 |}.

(** [===] on rule objects. *)
Definition same_rule (a b : Rule) : bool := Nat.eqb (rid a) (rid b).

(** Modelled from the spec: [createRule] (utils/createRule) is not among
    the sources.  The spec says [add] "constructs a Rule from a style
    declaration via the plugin pipeline", that a rule has "a unique key
    (its registry name)" and "a selector (present only for style-variant
    rules)".  The created rule object gets the identity [id]. *)
Definition createRule (id : nat) (name : string) (decl : JssStyle)
    (o : RuleOptions) : Rule :=
  {| rid := id; key := name; isStyleRule := styleVariant decl;
     selector := if styleVariant decl then opt_selector o else None;
     toCss := body decl |}.

(** Modelled from the spec: [linkRule] (utils/linkRule) is not among the
    sources.  The spec says the linker "records the binding from abstract
    Rule to native materialized rule". *)
Definition linkRule (rule : Rule) (cssRule : CSSOMRule) (rl : RuleList) : RuleList :=
  {| map := map rl; raw := raw rl; index := index rl; options := options rl;
     classes := classes rl;
     renderable := <[rid rule := cssRule]> (renderable rl);
     nextId := nextId rl |}.

(** Register a rule in [map] and [classes]. *)
Definition register (rule : Rule) (className : option string) (rl : RuleList) : RuleList :=
  let map1 := <[key rule := rule]> (map rl) in
  {| map := if isStyleRule rule then <[JS.to_str (selector rule) := rule]> map1 else map1;
     raw := raw rl; index := index rl; options := options rl;
     classes :=
       match className with
       | Some c =>
           if isStyleRule rule && JS.truthy c
           then <[key rule := c]> (classes rl)
           else classes rl
       | None => classes rl
       end;
     renderable := renderable rl; nextId := nextId rl |}.

(** Unregister a rule. *)
Definition unregister (rule : Rule) (rl : RuleList) : RuleList :=
  let map1 := delete (key rule) (map rl) in
  {| map := if isStyleRule rule then delete (JS.to_str (selector rule)) map1 else map1;
     raw := raw rl; index := index rl; options := options rl;
     classes := if isStyleRule rule then delete (key rule) (classes rl) else classes rl;
     renderable := renderable rl; nextId := nextId rl |}.

Definition set_index (l : list Rule) (rl : RuleList) : RuleList :=
  {| map := map rl; raw := raw rl; index := l; options := options rl;
     classes := classes rl; renderable := renderable rl; nextId := nextId rl |}.

(** Create and register rule.  [this.classes[name]] is a property read on a
    plain object, so it also sees the members inherited from
    [Object.prototype]. *)
Definition add (name : string) (decl : JssStyle) (o : RuleOptions) (rl : RuleList)
    : Rule * RuleList :=
  let o1 :=
    match JS.get_property (classes rl) name with
    | Some c =>
        if negb (JS.truthy_opt (opt_selector o)) && JS.truthy c
        then {| opt_selector := Some ("." +:+ c); opt_index := opt_index o |}
        else o
    | None => o
    end in
  let rl1 :=
    {| map := map rl; raw := <[name := decl]> (raw rl); index := index rl;
       options := options rl; classes := classes rl;
       renderable := renderable rl; nextId := S (nextId rl) |} in
  let rule0 := createRule (nextId rl) name decl o1 in
  let className :=
    if negb (JS.truthy_opt (opt_selector o1)) && isStyleRule rule0
    then Some (generateClassName (options rl) rule0)
    else None in
  let rule :=
    match className with
    | Some c =>
        {| rid := rid rule0; key := key rule0; isStyleRule := isStyleRule rule0;
           selector := Some ("." +:+ c); toCss := toCss rule0 |}
    | None => rule0
    end in
  let rl2 := register rule className rl1 in
  let i :=
    match opt_index o1 with
    | None => Z.of_nat (length (index rl2))
    | Some i => i
    end in
  (rule, set_index (JS.splice (index rl2) i 0 [rule]) rl2).

(** Get a rule. *)
Definition get (name : string) (rl : RuleList) : option Rule := map rl !! name.

(** Get index of a rule. *)
Definition indexOf (rule : Rule) (rl : RuleList) : Z :=
  JS.find_index_from (same_rule rule) 0 (index rl).

(** Delete a rule. *)
Definition remove (rule : Rule) (rl : RuleList) : RuleList :=
  let rl1 := unregister rule rl in
  set_index (JS.splice (index rl1) (indexOf rule rl1) 1 []) rl1.

(** Run the [onProcessRule] plugins on every rule.  The hook receives the
    registry and may change it; the cloned array is a fresh object that
    only the loop holds, so it is read through a constant accessor.  The
    second component lists the rules the hook was called on, in order. *)
Definition process (onProcessRule : Rule -> RuleList -> RuleList) (rl : RuleList)
    : RuleList * list Rule :=
  let clone := JS.slice0 (index rl) in
  JS.forEach (fun _ => clone) onProcessRule rl.

(** The same loop without the clone, iterating the live [index]. *)
Definition process_live (onProcessRule : Rule -> RuleList -> RuleList) (rl : RuleList)
    : RuleList * list Rule :=
  JS.forEach index onProcessRule rl.

(** Link renderable rules with the native rule list.  [None] is an
    exception raised while the escaping map is built.  The escaping map
    is a plain object: [map[selector]] also sees the members inherited
    from [Object.prototype], and what is read is then used as a property
    name of the registry's map, as its text. *)
Definition link_step (esc : option (gmap string (option string))) (rl : RuleList)
    (cssRule : CSSOMRule) : RuleList :=
  let selector0 := Some (getSelector cssRule) in
  let selector :=
    match esc with
    | Some m => JS.get_member m (JS.to_str selector0)
    | None => selector0
    end in
  match map rl !! JS.to_str selector with
  | Some rule => linkRule rule cssRule rl
  | None => rl
  end.

Definition link (cssRules : list CSSOMRule) (rl : RuleList) : option RuleList :=
  if supportEscaping (options rl) then
    match getUnescapedSelectorsMap selector (engine (options rl)) (index rl) with
    | Some m => Some (fold_left (link_step (Some m)) cssRules rl)
    | None => None
    end
  else Some (fold_left (link_step None) cssRules rl).

(** Convert rules to a CSS string: the loop body and the loop. *)
Definition toString_step (o : option ToCssOptions) (str : string) (rule : Rule) : string :=
  let css := toCss rule o in
  if negb (JS.truthy css) then str
  else (if JS.truthy str then str +:+ JS.LF else str) +:+ css.

Definition toString (o : option ToCssOptions) (rl : RuleList) : string :=
  fold_left (toString_step o) (index rl) "".

(** Sequences of [add] and [remove] calls on one registry. *)
Inductive Op :=
  | Add (name : string) (decl : JssStyle) (o : RuleOptions)
  | Remove (rule : Rule).

Definition step (rl : RuleList) (op : Op) : RuleList :=
  match op with
  | Add name decl o => snd (add name decl o rl)
  | Remove rule => remove rule rl
  end.

Definition run (ops : list Op) (rl : RuleList) : RuleList := fold_left step ops rl.

(** The part of [map] that is the lookup by key: the entries stored under
    the key of their rule. *)
Definition key_map (rl : RuleList) : gmap string Rule :=
  filter (fun entry => key (snd entry) = fst entry) (map rl).

(** The part of [map] that is the lookup by selector: the entries of style
    rules stored under the selector of their rule. *)
Definition selector_map (rl : RuleList) : gmap string Rule :=
  filter (fun entry => isStyleRule (snd entry) = true
                       /\ JS.to_str (selector (snd entry)) = fst entry) (map rl).

(** The ordered sequence is as long as the key map is large, and every
    style rule of the sequence is in the selector map exactly once, under
    its current selector. *)
Definition registry_consistent (rl : RuleList) : Prop :=
  length (index rl) = size (key_map rl)
  /\ forall rule, rule ∈ index rl -> isStyleRule rule = true ->
       selector_map rl !! JS.to_str (selector rule) = Some rule
       /\ forall s, selector_map rl !! s = Some rule -> s = JS.to_str (selector rule).

(** A sequence of operations in which every [add] creates a rule whose key
    and selector are not yet property names of [map], and every [remove]
    is given a rule that is in the ordered sequence. *)
Fixpoint permitted (ops : list Op) (rl : RuleList) : Prop :=
  match ops with
  | [] => True
  | op :: ops' =>
      match op with
      | Add name decl o =>
          let rule := fst (add name decl o rl) in
          map rl !! key rule = None
          /\ (isStyleRule rule = true -> map rl !! JS.to_str (selector rule) = None)
      | Remove rule => rule ∈ index rl
      end
      /\ permitted ops' (step rl op)
  end.

End RuleList.

(* ===================================================================== *)
(** ** The DOM renderer *)
(* ===================================================================== *)

Module DomRenderer.
Import NativeRule.

(** A node of the host document; [nid] is its identity, [nodeType] is 1
    for elements and 8 for comments. *)
Record Node := {
  nid : nat;
  nodeType : Z;
  nodeValue : string
}.

(** [===] on nodes. *)
Definition same_node (a b : Node) : bool := Nat.eqb (nid a) (nid b).

(** The host document: the child list of every parent, by the parent's
    identity.  The head is the parent [headId]. *)
Abbreviation Dom := (gmap nat (list Node)).

Definition headId : nat := 0.

Definition childNodes (d : Dom) (parent : nat) : list Node :=
  default [] (d !! parent).

Definition is_child (n : Node) (entry : nat * list Node) : bool :=
  existsb (same_node n) (snd entry).

(** [node.parentNode]: the parent whose child list holds the node. *)
Definition parentNode (d : Dom) (n : Node) : option nat :=
  fst <$> List.find (is_child n) (map_to_list d).

(** The siblings that follow [n] in a child list. *)
Fixpoint after (n : Node) (l : list Node) : list Node :=
  match l with
  | [] => []
  | c :: l' => if same_node n c then l' else after n l'
  end.

Definition nextSibling (d : Dom) (n : Node) : option Node :=
  match parentNode d n with
  | Some p => head (after n (childNodes d p))
  | None => None
  end.

Definition nextElementSibling (d : Dom) (n : Node) : option Node :=
  match parentNode d n with
  | Some p => List.find (fun c => nodeType c =? 1) (after n (childNodes d p))
  | None => None
  end.

Definition without (n : Node) (l : list Node) : list Node :=
  List.filter (fun c => negb (same_node n c)) l.

(** [new] placed before the first occurrence of [ref]; at the end when
    [ref] is null. *)
Fixpoint insert_before (new : Node) (ref : option Node) (l : list Node) : list Node :=
  match l with
  | [] => [new]
  | c :: l' =>
      if match ref with Some r => same_node r c | None => false end
      then new :: c :: l'
      else c :: insert_before new ref l'
  end.

(** [parent.insertBefore(new, ref)] for a [ref] that is null or a child of
    [parent]: the node leaves the position it had, if any, and goes before
    [ref]; a node given as its own reference stays before its next
    sibling. *)
Definition insertBefore (parent : nat) (new : Node) (ref : option Node) (d : Dom) : Dom :=
  let ref' :=
    match ref with
    | Some r => if same_node r new then nextSibling d new else ref
    | None => None
    end in
  let d1 := without new <$> d in
  <[parent := insert_before new ref' (childNodes d1 parent)]> d1.

(** [parent.removeChild(n)]. *)
Definition removeChild (parent : nat) (n : Node) (d : Dom) : Dom :=
  <[parent := without n (childNodes d parent)]> d.

(** An insertion point: a marker name or a node. *)
Inductive InsertionPoint :=
  | IPString (marker : string)
  | IPNode (node : Node).

(** [===] on optional insertion points: both absent, the same string, or
    the same node. *)
Definition same_insertionPoint (a b : option InsertionPoint) : bool :=
  match a, b with
  | None, None => true
  | Some (IPString s), Some (IPString t) => String.eqb s t
  | Some (IPNode n), Some (IPNode m) => same_node n m
  | _, _ => false
  end.

Record PriorityOptions := {
  index : Z;
  insertionPoint : option InsertionPoint
}.

(** A sheet as the renderer sees it: the [attached] flag, the options, the
    element of its renderer and its rule registry. *)
Record StyleSheet := {
  attached : bool;
  options : PriorityOptions;
  renderer_element : Node;
  rules : RuleList.RuleList
}.

(** What an operation does to the outside, in order. *)
Inductive Event :=
  | Warning (message : string)
  | SetTextContent (element : Node) (text : string)
  | InsertBefore (parent : nat) (new : Node) (ref : option Node)
  | RemoveChild (parent : nat) (child : Node).

(** The shared state: the document, the global sheet registry
    ([sheets.registry]) and the effects so far, oldest first. *)
Record World := {
  dom : Dom;
  registry : list StyleSheet;
  log : list Event
}.

Definition emit (e : Event) (w : World) : World :=
  {| dom := dom w; registry := registry w; log := (log w ++ [e])%list |}.

(** [warning(condition, message)] of the [warning] package: the message is
    reported when the condition is false. *)
Definition warning (condition : bool) (message : string) (w : World) : World :=
  if condition then w else emit (Warning message) w.

Definition do_insertBefore (parent : nat) (new : Node) (ref : option Node) (w : World) : World :=
  emit (InsertBefore parent new ref)
    {| dom := insertBefore parent new ref (dom w); registry := registry w; log := log w |}.

(** The test of the loop of [findHigherSheet]. *)
Definition is_higher (o : PriorityOptions) (sheet : StyleSheet) : bool :=
  attached sheet
  && (index (options sheet) >? index o)
  && same_insertionPoint (insertionPoint (options sheet)) (insertionPoint o).

(** Find attached sheet with an index higher than the passed one. *)
Definition findHigherSheet (registry : list StyleSheet) (o : PriorityOptions)
    : option StyleSheet :=
  List.find (is_higher o) registry.

(** The test of the loop of [findHighestSheet]. *)
Definition shares_insertionPoint (o : PriorityOptions) (sheet : StyleSheet) : bool :=
  attached sheet
  && same_insertionPoint (insertionPoint (options sheet)) (insertionPoint o).

(** Find attached sheet with the highest index. *)
Definition findHighestSheet (registry : list StyleSheet) (o : PriorityOptions)
    : option StyleSheet :=
  List.find (shares_insertionPoint o) (rev registry).

(** Find a comment with the given text inside. *)
Definition findCommentNode (d : Dom) (text : string) : option Node :=
  List.find
    (fun node => (nodeType node =? 8) && String.eqb (JS.trim (nodeValue node)) text)
    (childNodes d headId).

Definition marker_warning (marker : string) : string :=
  "[JSS] Insertion point " +:+ JS.QUOTE +:+ marker +:+ JS.QUOTE +:+ " not found.".

(** The comment placeholder part of [findPrevNode]. *)
Definition findPlaceholder (o : PriorityOptions) (w : World) : option Node * World :=
  match insertionPoint o with
  | Some (IPString marker) =>
      if JS.truthy marker then
        match findCommentNode (dom w) marker with
        | Some comment => (nextSibling (dom w) comment, w)
        | None => (None, warning (String.eqb marker "jss") (marker_warning marker) w)
        end
      else (None, w)
  | _ => (None, w)
  end.

(** Find a node before which we can insert the sheet. *)
Definition findPrevNode (o : PriorityOptions) (w : World) : option Node * World :=
  if (0 <? Z.of_nat (length (registry w))) then
    match findHigherSheet (registry w) o with
    | Some sheet => (Some (renderer_element sheet), w)
    | None =>
        match findHighestSheet (registry w) o with
        | Some sheet => (nextElementSibling (dom w) (renderer_element sheet), w)
        | None => findPlaceholder o w
        end
    end
  else findPlaceholder o w.

(** Insert style element into the DOM. *)
Definition insertStyle (style : Node) (o : PriorityOptions) (w : World) : World :=
  let '(prevNode, w1) := findPrevNode o w in
  match prevNode with
  | Some prev =>
      match parentNode (dom w1) prev with
      | Some parent => do_insertBefore parent style (Some prev) w1
      | None => w1
      end
  | None =>
      match insertionPoint o with
      | Some (IPNode insertionPointElement) =>
          match parentNode (dom w1) insertionPointElement with
          | Some parent =>
              do_insertBefore parent style
                (nextSibling (dom w1) insertionPointElement) w1
          | None => warning false "[JSS] Insertion point is not in the DOM." w1
          end
      | _ => do_insertBefore headId style None w1
      end
  end.

(** The renderer of one sheet.  [cssRules] is the live rule list of
    [element.sheet], which the model takes to exist; [textContent] is the
    text of the element. *)
Record DomRenderer := {
  element : Node;
  sheet : option StyleSheet;
  hasInsertedRules : bool;
  textContent : string;
  cssRules : list CSSOMRule
}.

Definition set_hasInsertedRules (b : bool) (r : DomRenderer) : DomRenderer :=
  {| element := element r; sheet := sheet r; hasInsertedRules := b;
     textContent := textContent r; cssRules := cssRules r |}.

Definition set_cssRules (l : list CSSOMRule) (r : DomRenderer) : DomRenderer :=
  {| element := element r; sheet := sheet r; hasInsertedRules := hasInsertedRules r;
     textContent := textContent r; cssRules := l |}.

(** Modelled from the spec: [StyleSheet.toString] is not among the
    sources.  The spec says deploy overwrites "the container's entire text
    content with the Rule Registry's serialization". *)
Definition sheet_toString (s : StyleSheet) : string :=
  RuleList.toString None (rules s).

(** [===] on native rules. *)
Definition same_cssRule (a b : CSSOMRule) : bool := Nat.eqb (cid a) (cid b).

Section Renderer.
Variable eng : Engine.

(** Inject CSS string into element. *)
Definition deploy (r : DomRenderer) (w : World) : DomRenderer * World :=
  match sheet r with
  | None => (r, w)
  | Some s =>
      let text := JS.LF +:+ sheet_toString s +:+ JS.LF in
      ({| element := element r; sheet := sheet r;
          hasInsertedRules := hasInsertedRules r;
          textContent := text; cssRules := parseSheet eng text |},
       emit (SetTextContent (element r) text) w)
  end.

(** Insert style element into render tree. *)
Definition attach (r : DomRenderer) (w : World) : DomRenderer * World :=
  match parentNode (dom w) (element r), sheet r with
  | Some _, _ => (r, w)
  | None, None => (r, w)
  | None, Some s =>
      let '(r1, w1) :=
        if hasInsertedRules r
        then let '(r0, w0) := deploy r w in (set_hasInsertedRules false r0, w0)
        else (r, w) in
      (r1, insertStyle (element r1) (options s) w1)
  end.

(** Remove style element from render tree.  [None] is the [TypeError]
    of calling [removeChild] on a null [parentNode]. *)
Definition detach (r : DomRenderer) (w : World) : option (DomRenderer * World) :=
  match parentNode (dom w) (element r) with
  | None => None
  | Some parent =>
      Some (r, emit (RemoveChild parent (element r))
                 {| dom := removeChild parent (element r) (dom w);
                    registry := registry w; log := log w |})
  end.

(** The engine's [sheet.insertRule(text, index)]: [None] when it throws,
    because it refuses the text or the index is out of range. *)
Definition native_insertRule (l : list CSSOMRule) (text : string) (i : Z)
    : option (list CSSOMRule) :=
  match parseRule eng text with
  | None => None
  | Some c =>
      if (0 <=? i) && (i <=? Z.of_nat (length l))
      then Some (take (Z.to_nat i) l ++ c :: drop (Z.to_nat i) l)%list
      else None
  end.

(** The message of the warning of [insertRule], with the rule's text in
    the place of the format's [%s]. *)
Definition insertRule_warning (str : string) : string :=
  "[JSS] Can not insert an unsupported rule " +:+ JS.LF +:+ JS.CR +:+ str.

(** Insert a rule into element.  The result is [None] for [false]. *)
Definition insertRule (rule : RuleList.Rule) (index : option Z)
    (r : DomRenderer) (w : World) : option CSSOMRule * DomRenderer * World :=
  let str := RuleList.toCss rule None in
  let i :=
    match index with
    | None => Z.of_nat (length (cssRules r))
    | Some i => if i =? 0 then Z.of_nat (length (cssRules r)) else i
    end in
  if negb (JS.truthy str) then (None, r, w)
  else
    match native_insertRule (cssRules r) str i with
    | None => (None, r, warning false (insertRule_warning str) w)
    | Some l =>
        (l !! Z.to_nat i, set_hasInsertedRules true (set_cssRules l r), w)
    end.

(** Get index of a CSS Rule. *)
Definition indexOf (cssRule : CSSOMRule) (r : DomRenderer) : Z :=
  JS.find_index_from (same_cssRule cssRule) 0 (cssRules r).

(** Delete a rule. *)
Definition deleteRule (cssRule : CSSOMRule) (r : DomRenderer) : bool * DomRenderer :=
  let i := indexOf cssRule r in
  if i =? -1 then (false, r)
  else (true, set_cssRules (take (Z.to_nat i) (cssRules r)
                            ++ drop (S (Z.to_nat i)) (cssRules r))%list r).

(** The engine's [sheet.deleteRule(index)]: [None] when it throws, because
    the index is out of range. *)
Definition native_deleteRule (l : list CSSOMRule) (i : Z) : option (list CSSOMRule) :=
  if (0 <=? i) && (i <? Z.of_nat (length l))
  then Some (take (Z.to_nat i) l ++ drop (S (Z.to_nat i)) l)%list
  else None.

(** Generate a new CSS rule and replace the existing one.  The first
    component is [None] when the final [sheet.deleteRule] throws; the
    renderer and the world are then as they were at the throw. *)
Definition replaceRule (cssRule : CSSOMRule) (rule : RuleList.Rule)
    (r : DomRenderer) (w : World) : option (option CSSOMRule) * DomRenderer * World :=
  let index := indexOf cssRule r in
  let '(newCssRule, r1, w1) := insertRule rule (Some index) r w in
  match native_deleteRule (cssRules r1) index with
  | Some l => (Some newCssRule, set_cssRules l r1, w1)
  | None => (None, r1, w1)
  end.

(** Get all rules elements. *)
Definition getRules (r : DomRenderer) : list CSSOMRule := cssRules r.

(** The [attached] flag of the collection that owns the renderer. *)
Definition is_attached (r : DomRenderer) : bool :=
  match sheet r with
  | Some s => attached s
  | None => false
  end.

Definition set_attached (b : bool) (s : StyleSheet) : StyleSheet :=
  {| attached := b; options := options s; renderer_element := renderer_element s;
     rules := rules s |}.

(** The flag written on the sheet object: on the sheet the renderer holds
    and on its entry in the global registry, the same object, found there
    by its container. *)
Definition mark_attached (b : bool) (r : DomRenderer) (w : World) : DomRenderer * World :=
  ({| element := element r; sheet := set_attached b <$> sheet r;
      hasInsertedRules := hasInsertedRules r; textContent := textContent r;
      cssRules := cssRules r |},
   {| dom := dom w;
      registry :=
        List.map (fun s => if same_node (element r) (renderer_element s)
                           then set_attached b s else s) (registry w);
      log := log w |}).

(** Modelled from the spec: the attach and detach of the collection
    ([StyleSheet.attach], [StyleSheet.detach]) are not among the sources.
    The spec says that a collection "has an `attached` boolean", that
    "attach/detach are idempotent guards, not retryable operations:
    repeated attach on an already-attached collection or detach on an
    unattached one is a safe no-op", that attach is to "insert container
    into host at resolved position", that detach is to "remove container
    from host" and "only clears `attached`".  Past the guard they call the
    renderer and write the flag. *)
Definition sheet_attach (r : DomRenderer) (w : World) : DomRenderer * World :=
  if is_attached r then (r, w)
  else let '(r1, w1) := attach r w in mark_attached true r1 w1.

Definition sheet_detach (r : DomRenderer) (w : World) : option (DomRenderer * World) :=
  if negb (is_attached r) then Some (r, w)
  else match detach r w with
       | Some (r1, w1) => Some (mark_attached false r1 w1)
       | None => None
       end.
End Renderer.

End DomRenderer.

(* ===================================================================== *)
(** ** Properties of the rule registry *)
(* ===================================================================== *)

Module RuleListFacts.
Import NativeRule RuleList.

(** *** Serialization *)

(** Following the spec's words: strings joined by a single separator line
    between them. *)
Fixpoint join_lines (l : list string) : string :=
  match l with
  | [] => ""
  | [x] => x
  | x :: l' => x +:+ JS.LF +:+ join_lines l'
  end.

(** Following the spec's words: the rules' own serializations in sequence
    order; the empty ones contribute nothing. *)
Definition nonempty_bodies (o : option ToCssOptions) (l : list Rule) : list string :=
  List.filter JS.truthy (List.map (fun rule => toCss rule o) l).

Lemma append_empty_r (s : string) : s +:+ "" = s.
Proof.
  induction s as [|c s IH]; [reflexivity|].
  change (String c (s +:+ "") = String c s). now rewrite IH.
Qed.

Lemma append_assoc (a b c : string) : (a +:+ b) +:+ c = a +:+ (b +:+ c).
Proof.
  induction a as [|x a IH]; [reflexivity|].
  change (String x ((a +:+ b) +:+ c) = String x (a +:+ (b +:+ c))). now rewrite IH.
Qed.

Lemma truthy_append_l (a b : string) : JS.truthy a = true -> JS.truthy (a +:+ b) = true.
Proof. destruct a; [discriminate | reflexivity]. Qed.

Lemma truthy_append_r (a b : string) : JS.truthy b = true -> JS.truthy (a +:+ b) = true.
Proof. destruct a; [trivial | reflexivity]. Qed.

Lemma join_lines_cons (x : string) (l : list string) :
  l <> [] -> join_lines (x :: l) = x +:+ JS.LF +:+ join_lines l.
Proof. destruct l; [congruence | reflexivity]. Qed.

(** The loop, started from a text already collected. *)
Lemma toString_loop (o : option ToCssOptions) (l : list Rule) (str : string) :
  fold_left (toString_step o) l str =
    match nonempty_bodies o l with
    | [] => str
    | bodies =>
        if JS.truthy str then str +:+ JS.LF +:+ join_lines bodies
        else str +:+ join_lines bodies
    end.
Proof.
  revert str. induction l as [|rule l IH]; intros str; [reflexivity|].
  cbn [fold_left]. rewrite IH. unfold nonempty_bodies. cbn [List.map List.filter].
  fold (nonempty_bodies o l).
  unfold toString_step.
  destruct (JS.truthy (toCss rule o)) eqn:Hcss; cbn [negb].
  - destruct (nonempty_bodies o l) as [|b bs] eqn:Hb.
    + cbn [join_lines]. destruct (JS.truthy str); now rewrite ?append_assoc.
    + rewrite (join_lines_cons (toCss rule o) (b :: bs)) by discriminate.
      destruct (JS.truthy str) eqn:Hstr.
      * rewrite truthy_append_l by (now apply truthy_append_l).
        now rewrite !append_assoc.
      * rewrite truthy_append_r by exact Hcss.
        now rewrite !append_assoc.
  - reflexivity.
Qed.

(** C6: [toString] is the rules' non-empty serializations, in sequence
    order, joined by a single separator line; a rule whose serialization
    is empty contributes nothing, so for the rules [[A; B]] where A
    serializes to the empty string the output is exactly B's
    serialization (for instance ["color:red"]). *)
Theorem toString_joins_nonempty :
  (forall (o : option ToCssOptions) (rl : RuleList),
      toString o rl = join_lines (nonempty_bodies o (index rl)))
  /\ (forall (o : option ToCssOptions) (rl : RuleList) (a b : Rule),
         index rl = [a; b] -> toCss a o = "" -> toString o rl = toCss b o).
Proof.
  split.
  - intros o rl. unfold toString. rewrite toString_loop.
    destruct (nonempty_bodies o (index rl)); reflexivity.
  - intros o rl a b Hidx Ha. unfold toString. rewrite Hidx. cbn [fold_left].
    unfold toString_step. rewrite Ha. cbn.
    destruct (toCss b o); reflexivity.
Qed.

Definition plain_options : RuleListOptions :=
  {| generateClassName := fun rule => key rule +:+ "-0";
     supportEscaping := false;
     engine := {| parseSheet := fun _ => []; parseRule := fun _ => None |} |}.

Definition opaque (text : string) : JssStyle :=
  {| styleVariant := false; body := fun _ => text |}.

Definition style (text : string) : JssStyle :=
  {| styleVariant := true; body := fun _ => text |}.

Definition no_options : RuleOptions := {| opt_selector := None; opt_index := None |}.

(** The registry holding A("") and B("color:red"), in that order. *)
Definition registry_AB : RuleList :=
  snd (add "B" (opaque "color:red") no_options
         (snd (add "A" (opaque "") no_options (constructor plain_options ∅)))).

Lemma toString_joins_nonempty_witness : toString None registry_AB = "color:red".
Proof.
  destruct toString_joins_nonempty as [_ H].
  apply (H None registry_AB
           (createRule 0 "A" (opaque "") no_options)
           (createRule 1 "B" (opaque "color:red") no_options));
    reflexivity.
Defined.

(** *** Processing *)

(** [forEach] over an array that no call can change visits the positions
    from [k] on, once each and in order. *)
Lemma forEach_from_constant {A St : Type} (l : list A) (f : A -> St -> St)
    (todo k : nat) (s : St) :
  (k + todo)%nat = length l ->
  JS.forEach_from (fun _ => l) f k todo s
  = (fold_left (fun s x => f x s) (drop k l) s, drop k l).
Proof.
  revert k s. induction todo as [|todo IH]; intros k s Hlen.
  - rewrite drop_ge by lia. reflexivity.
  - cbn [JS.forEach_from].
    destruct (l !! k) as [x|] eqn:Hx.
    + rewrite (drop_S l x k Hx). rewrite IH by lia. reflexivity.
    + apply lookup_ge_None in Hx. lia.
Qed.

(** C7: [process] calls the rule-processing hook exactly once on each rule
    that is in the ordered sequence when [process] is called, in sequence
    order, whatever the hook does to the registry (adding or removing
    rules included): the calls made are the sequence as it was, and the
    resulting registry is the hook applied rule by rule. *)
Theorem process_visits_snapshot :
  forall (onProcessRule : Rule -> RuleList -> RuleList) (rl : RuleList),
    snd (process onProcessRule rl) = index rl
    /\ fst (process onProcessRule rl)
       = fold_left (fun s rule => onProcessRule rule s) (index rl) rl.
Proof.
  intros hook rl. unfold process, JS.forEach, JS.slice0.
  rewrite forEach_from_constant by (cbn; lia).
  cbn. split; reflexivity.
Qed.

(** *** Linking *)

(** A keyframes rule as an engine without [rule.name] presents it. *)
Definition pulse_without_name : CSSOMRule :=
  {| cid := 0; type := KEYFRAMES_RULE; selectorText := ""; name := None;
     cssText := "@keyframes pulse { ... }" |}.

(** The same rule as an engine with [rule.name] presents it. *)
Definition pulse_with_name : CSSOMRule :=
  {| cid := 0; type := KEYFRAMES_RULE; selectorText := ""; name := Some "pulse";
     cssText := "@keyframes pulse { ... }" |}.

(** A registry whose only rule is registered as ["@keyframes pulse"]. *)
Definition keyframes_registry : RuleList :=
  snd (add "@keyframes pulse" (opaque "@keyframes pulse { ... }") no_options
         (constructor plain_options ∅)).

Definition keyframes_rule : Rule :=
  createRule 0 "@keyframes pulse" (opaque "@keyframes pulse { ... }") no_options.

(** With [rule.name] the rule is found and bound. *)
Lemma link_keyframes_with_name :
  getSelector pulse_with_name = "@keyframes pulse"
  /\ exists rl, link [pulse_with_name] keyframes_registry = Some rl
                /\ renderable rl !! rid keyframes_rule = Some pulse_with_name.
Proof. split; [reflexivity|]. eexists. split; reflexivity. Qed.

(** The text branch without an offset drops the space before the body. *)
Lemma extractSelector_from_start :
  extractSelector "@media print { a { color: red } }" 0 = "@media print".
Proof. reflexivity. Qed.

(** C3: for the keyframes rule without a structured name and with the raw
    text ["@keyframes pulse { ... }"], [getSelector] yields
    ["@keyframes pulse "], with the space that precedes the body, and
    [link] leaves the registry entry ["@keyframes pulse"] unbound. *)
Theorem link_keyframes_without_name :
  getSelector pulse_without_name = "@keyframes pulse "
  /\ get "@keyframes pulse" keyframes_registry = Some keyframes_rule
  /\ exists rl, link [pulse_without_name] keyframes_registry = Some rl
                /\ renderable rl !! rid keyframes_rule = None.
Proof.
  split; [reflexivity|]. split; [reflexivity|].
  eexists. split; reflexivity.
Qed.

(** *** Removal *)

Definition registry_ab : RuleList :=
  snd (add "b" (style "color:blue") no_options
         (snd (add "a" (style "color:red") no_options (constructor plain_options ∅)))).

Definition rule_a : Rule :=
  fst (add "a" (style "color:red") no_options (constructor plain_options ∅)).

Definition rule_b : Rule :=
  fst (add "b" (style "color:blue") no_options
         (snd (add "a" (style "color:red") no_options (constructor plain_options ∅)))).

(** C4: removing the rule [a] a second time, when it is no longer in the
    ordered sequence, removes the last rule of the sequence: after
    [add a; add b; remove a] the sequence is [[b]], and a second
    [remove a] leaves it empty while [b] stays in the map. *)
Theorem remove_absent_drops_last :
  index registry_ab = [rule_a; rule_b]
  /\ index (remove rule_a registry_ab) = [rule_b]
  /\ indexOf rule_a (remove rule_a registry_ab) = -1
  /\ index (remove rule_a (remove rule_a registry_ab)) = []
  /\ get "b" (remove rule_a (remove rule_a registry_ab)) = Some rule_b.
Proof. repeat split; reflexivity. Qed.

(** A hook that removes the rule it is given.  Over the clone every rule is
    visited; over the live sequence the rule that moves into the place of
    the removed one is skipped. *)
Example process_with_removing_hook :
  snd (process remove registry_ab) = [rule_a; rule_b]
  /\ index (fst (process remove registry_ab)) = []
  /\ snd (process_live remove registry_ab) = [rule_a]
  /\ index (fst (process_live remove registry_ab)) = [rule_b].
Proof. repeat split; reflexivity. Qed.

(** *** Consistency of the sequence and the maps *)

Lemma splice_insert {A : Type} (l : list A) (i : Z) (x : A) :
  exists k : nat, JS.splice l i 0 [x] = (take k l ++ x :: drop k l)%list.
Proof.
  unfold JS.splice.
  set (from := if i <? 0 then Z.max (Z.of_nat (length l) + i) 0
               else Z.min i (Z.of_nat (length l))).
  assert (Hfrom : 0 <= from <= Z.of_nat (length l)).
  { subst from. destruct (i <? 0) eqn:Hi; lia. }
  exists (Z.to_nat from).
  replace (Z.min (Z.max 0 0) (Z.of_nat (length l) - from)) with 0 by lia.
  now rewrite Z.add_0_r.
Qed.

Lemma splice_delete {A : Type} (l : list A) (k : nat) :
  (k < length l)%nat ->
  JS.splice l (Z.of_nat k) 1 [] = (take k l ++ drop (S k) l)%list.
Proof.
  intros Hk. unfold JS.splice.
  replace (Z.of_nat k <? 0) with false by (symmetry; apply Z.ltb_ge; lia).
  replace (Z.min (Z.of_nat k) (Z.of_nat (length l))) with (Z.of_nat k) by lia.
  replace (Z.min (Z.max 1 0) (Z.of_nat (length l) - Z.of_nat k)) with 1 by lia.
  rewrite Nat2Z.id. replace (Z.to_nat (Z.of_nat k + 1)) with (S k) by lia.
  reflexivity.
Qed.

Lemma same_rule_true (a b : Rule) : same_rule a b = true <-> rid a = rid b.
Proof. unfold same_rule. apply Nat.eqb_eq. Qed.

(** In a sequence of distinct rule objects, [indexOf] finds the position
    of a rule that is in the sequence. *)
Lemma find_index_of_member (rule : Rule) (l : list Rule) (k : Z) :
  NoDup (rid <$> l) -> rule ∈ l ->
  exists j : nat,
    JS.find_index_from (same_rule rule) k l = k + Z.of_nat j /\ l !! j = Some rule.
Proof.
  revert k. induction l as [|x l IH]; intros k Hnd Hin.
  - inversion Hin.
  - rewrite fmap_cons in Hnd. apply NoDup_cons in Hnd as [Hx Hnd].
    cbn [JS.find_index_from].
    destruct (same_rule rule x) eqn:Hsame.
    + exists 0%nat. split; [lia|].
      apply same_rule_true in Hsame.
      apply elem_of_cons in Hin as [->|Hin]; [reflexivity|].
      exfalso. apply Hx. rewrite <- Hsame. now apply list_elem_of_fmap_2.
    + apply elem_of_cons in Hin as [->|Hin].
      * unfold same_rule in Hsame. rewrite Nat.eqb_refl in Hsame. discriminate.
      * destruct (IH (k + 1) Hnd Hin) as (j & Hj & Hl).
        exists (S j). split; [lia | exact Hl].
Qed.

(** What [add] does to the fields the invariant speaks of. *)
Lemma add_effect (name : string) (decl : JssStyle) (o : RuleOptions) (rl : RuleList) :
  let rule := fst (add name decl o rl) in
  let rl' := snd (add name decl o rl) in
  key rule = name
  /\ rid rule = nextId rl
  /\ nextId rl' = S (nextId rl)
  /\ map rl' = (if isStyleRule rule
               then <[JS.to_str (selector rule) := rule]> (<[name := rule]> (map rl))
               else <[name := rule]> (map rl))
  /\ exists k : nat, index rl' = (take k (index rl) ++ rule :: drop k (index rl))%list.
Proof.
  unfold add. cbn zeta.
  set (o1 := match JS.get_property (classes rl) name with Some _ => _ | None => _ end).
  set (className := if (_ : bool) then Some _ else @None string).
  set (rule := match className with Some _ => _ | None => _ end).
  cbn [fst snd].
  assert (Hkey : key rule = name) by (subst rule; destruct className; reflexivity).
  assert (Hrid : rid rule = nextId rl) by (subst rule; destruct className; reflexivity).
  repeat split; try assumption.
  - unfold register, set_index. cbn. rewrite Hkey. reflexivity.
  - unfold set_index. cbn [index]. unfold register at 2. cbn [index].
    apply splice_insert.
Qed.

(** What [remove] does, for a rule of a sequence of distinct objects. *)
Lemma remove_effect (rule : Rule) (rl : RuleList) :
  NoDup (rid <$> index rl) -> rule ∈ index rl ->
  nextId (remove rule rl) = nextId rl
  /\ map (remove rule rl) = (if isStyleRule rule
                             then delete (JS.to_str (selector rule)) (delete (key rule) (map rl))
                             else delete (key rule) (map rl))
  /\ exists l1 l2, index rl = (l1 ++ rule :: l2)%list
                   /\ index (remove rule rl) = (l1 ++ l2)%list.
Proof.
  intros Hnd Hin. unfold remove, set_index, unregister, indexOf. cbn.
  repeat split.
  destruct (find_index_of_member rule (index rl) 0 Hnd Hin) as (j & Hj & Hl).
  rewrite Hj, Z.add_0_l.
  rewrite splice_delete by (now apply lookup_lt_Some in Hl).
  exists (take j (index rl)), (drop (S j) (index rl)).
  split; [|reflexivity]. symmetry. now apply take_drop_middle.
Qed.

(** The invariant kept by permitted operations: the rule objects of the
    sequence are distinct and older than the next identity, every rule of
    the sequence is in [map] under its key and (a style rule) under its
    selector, [map] holds nothing else, and the sequence is as long as the
    key map is large. *)
Record well_formed (rl : RuleList) : Prop := {
  wf_distinct : NoDup (rid <$> index rl);
  wf_older : forall rule, rule ∈ index rl -> (rid rule < nextId rl)%nat;
  wf_registered : forall rule, rule ∈ index rl ->
      map rl !! key rule = Some rule
      /\ (isStyleRule rule = true -> map rl !! JS.to_str (selector rule) = Some rule);
  wf_only : forall k rule, map rl !! k = Some rule ->
      rule ∈ index rl
      /\ (k = key rule \/ (isStyleRule rule = true /\ k = JS.to_str (selector rule)));
  wf_size : length (index rl) = size (key_map rl)
}.

Lemma well_formed_constructor (o : RuleListOptions) (cls : gmap string string) :
  well_formed (constructor o cls).
Proof.
  split; cbn.
  - constructor.
  - intros rule Hin. inversion Hin.
  - intros rule Hin. inversion Hin.
  - intros k rule Hk. rewrite lookup_empty in Hk. discriminate.
  - unfold key_map. cbn. now rewrite map_filter_empty, map_size_empty.
Qed.

Lemma well_formed_add (name : string) (decl : JssStyle) (o : RuleOptions) (rl : RuleList) :
  well_formed rl ->
  map rl !! key (fst (add name decl o rl)) = None ->
  (isStyleRule (fst (add name decl o rl)) = true ->
   map rl !! JS.to_str (selector (fst (add name decl o rl))) = None) ->
  well_formed (snd (add name decl o rl)).
Proof.
  intros [Hnd Hold Hreg Honly Hsize].
  destruct (add_effect name decl o rl) as (Hkey & Hrid & Hnext & Hmap & k & Hidx).
  set (rule := fst (add name decl o rl)) in *.
  set (rl' := snd (add name decl o rl)) in *.
  rewrite Hkey. intros Hfresh Hfresh_sel.
  assert (Hperm : index rl' ≡ₚ rule :: index rl).
  { rewrite Hidx. rewrite <- Permutation_middle. now rewrite take_drop. }
  assert (Hmem : forall r, r ∈ index rl' <-> r = rule \/ r ∈ index rl).
  { intros r. rewrite Hperm. apply elem_of_cons. }
  assert (Hother : forall r, r ∈ index rl -> forall k0, map rl !! k0 = Some r ->
                   map rl' !! k0 = Some r).
  { intros r Hr k0 Hk0. rewrite Hmap.
    assert (k0 <> name) by congruence.
    destruct (isStyleRule rule) eqn:Hst.
    - assert (k0 <> JS.to_str (selector rule))
        by (specialize (Hfresh_sel eq_refl); congruence).
      now rewrite !lookup_insert_ne by congruence.
    - now rewrite lookup_insert_ne by congruence. }
  split.
  - rewrite Hperm, fmap_cons. apply NoDup_cons. split; [|exact Hnd].
    intros Hin. apply list_elem_of_fmap in Hin as (r & Hr & Hin).
    apply Hold in Hin. lia.
  - intros r Hr. apply Hmem in Hr as [->|Hr]; [lia|].
    apply Hold in Hr. lia.
  - intros r Hr. apply Hmem in Hr as [->|Hr].
    + rewrite Hmap, Hkey. destruct (isStyleRule rule) eqn:Hst.
      * split; [|intros _; apply lookup_insert_eq].
        destruct (decide (JS.to_str (selector rule) = name)) as [->|Hne].
        -- apply lookup_insert_eq.
        -- rewrite lookup_insert_ne by exact Hne. apply lookup_insert_eq.
      * split; [apply lookup_insert_eq | discriminate].
    + destruct (Hreg r Hr) as [Hk Hs]. split.
      * now apply Hother.
      * intros Hst. apply Hother; auto.
  - intros k0 r Hk0. rewrite Hmap in Hk0.
    assert (Hcases : (k0 = name /\ r = rule)
                     \/ (isStyleRule rule = true
                         /\ k0 = JS.to_str (selector rule) /\ r = rule)
                     \/ map rl !! k0 = Some r).
    { destruct (isStyleRule rule) eqn:Hst.
      - apply lookup_insert_Some in Hk0 as [[<- <-]|[_ Hk0]]; [tauto|].
        apply lookup_insert_Some in Hk0 as [[<- <-]|[_ Hk0]]; tauto.
      - apply lookup_insert_Some in Hk0 as [[<- <-]|[_ Hk0]]; tauto. }
    destruct Hcases as [[-> ->]|[(Hst & -> & ->)|Hold0]].
    + split; [apply Hmem; now left | left; now rewrite Hkey].
    + split; [apply Hmem; now left | right; now split].
    + destruct (Honly k0 r Hold0) as [Hin Hk]. split; [apply Hmem; now right | exact Hk].
  - rewrite Hperm. cbn [length]. rewrite Hsize. unfold key_map. rewrite Hmap.
    assert (Hbase : size (filter (fun entry : string * Rule => key entry.2 = entry.1)
                            (<[name := rule]> (map rl)))
                    = S (size (filter (fun entry : string * Rule => key entry.2 = entry.1)
                                 (map rl)))).
    { rewrite map_filter_insert_True by exact Hkey.
      apply map_size_insert_None. apply map_lookup_filter_None. now left. }
    destruct (isStyleRule rule) eqn:Hst; [|now rewrite Hbase].
    destruct (decide (JS.to_str (selector rule) = name)) as [Heq|Hne].
    + rewrite Heq, insert_insert_eq. now rewrite Hbase.
    + rewrite map_filter_insert_False
        by (intros Hp; apply Hne; rewrite <- Hkey; symmetry; exact Hp).
      rewrite delete_id; [now rewrite Hbase|].
      rewrite lookup_insert_ne by congruence. now apply Hfresh_sel.
Qed.

Lemma well_formed_remove (rule : Rule) (rl : RuleList) :
  well_formed rl -> rule ∈ index rl -> well_formed (remove rule rl).
Proof.
  intros [Hnd Hold Hreg Honly Hsize] Hin.
  destruct (remove_effect rule rl Hnd Hin) as (Hnext & Hmap & l1 & l2 & Hidx & Hidx').
  assert (Hperm : index rl ≡ₚ rule :: index (remove rule rl)).
  { rewrite Hidx, Hidx'. symmetry. apply Permutation_middle. }
  assert (Hnd' : NoDup (rid <$> rule :: index (remove rule rl))).
  { now rewrite <- Hperm. }
  rewrite fmap_cons in Hnd'. apply NoDup_cons in Hnd' as [Hnotin Hnd'].
  assert (Hmem : forall r, r ∈ index rl <-> r = rule \/ r ∈ index (remove rule rl)).
  { intros r. rewrite Hperm. apply elem_of_cons. }
  assert (Hsub : forall r, r ∈ index (remove rule rl) -> r ∈ index rl /\ r <> rule).
  { intros r Hr. split; [apply Hmem; now right|].
    intros ->. apply Hnotin. now apply list_elem_of_fmap_2. }
  destruct (Hreg rule Hin) as [Hrk Hrs].
  assert (Hkeep : forall r k, r <> rule -> map rl !! k = Some r ->
                  map (remove rule rl) !! k = Some r).
  { intros r k Hne Hk. rewrite Hmap.
    assert (k <> key rule) by congruence.
    destruct (isStyleRule rule) eqn:Hst.
    - assert (k <> JS.to_str (selector rule))
        by (specialize (Hrs eq_refl); congruence).
      now rewrite !lookup_delete_ne by congruence.
    - now rewrite lookup_delete_ne by congruence. }
  split.
  - exact Hnd'.
  - intros r Hr. rewrite Hnext. apply Hold. now apply Hsub.
  - intros r Hr. apply Hsub in Hr as [Hr Hne].
    destruct (Hreg r Hr) as [Hk Hs]. split.
    + now apply Hkeep.
    + intros Hst. apply Hkeep; auto.
  - intros k r Hk. rewrite Hmap in Hk.
    assert (Hk0 : map rl !! k = Some r
                  /\ k <> key rule
                  /\ (isStyleRule rule = true -> k <> JS.to_str (selector rule))).
    { destruct (isStyleRule rule) eqn:Hst.
      - apply lookup_delete_Some in Hk as [Hn1 Hk].
        apply lookup_delete_Some in Hk as [Hn2 Hk]. repeat split; congruence.
      - apply lookup_delete_Some in Hk as [Hn2 Hk]. repeat split; congruence. }
    destruct Hk0 as (Hk0 & Hn1 & Hn2).
    destruct (Honly k r Hk0) as [Hr Hcase]. split; [|exact Hcase].
    apply Hmem in Hr as [->|Hr]; [|exact Hr].
    exfalso. destruct Hcase as [->|[Hst ->]]; [now apply Hn1 | now apply Hn2].
  - assert (Hlen : length (index rl) = S (length (index (remove rule rl)))).
    { now rewrite Hperm. }
    unfold key_map in *. rewrite Hmap.
    assert (Hbase : size (filter (fun entry : string * Rule => key entry.2 = entry.1)
                            (delete (key rule) (map rl)))
                    = length (index (remove rule rl))).
    { rewrite map_filter_delete, map_size_delete_Some.
      - rewrite <- Hsize, Hlen. reflexivity.
      - exists rule. apply map_lookup_filter_Some. now split. }
    destruct (isStyleRule rule) eqn:Hst; [|now rewrite Hbase].
    rewrite map_filter_delete, map_size_delete_None; [now rewrite Hbase|].
    apply map_lookup_filter_None.
    destruct (decide (JS.to_str (selector rule) = key rule)) as [Heq|Hne].
    + left. rewrite Heq. apply lookup_delete_eq.
    + right. intros r Hr Hp. rewrite lookup_delete_ne in Hr by congruence.
      rewrite (Hrs eq_refl) in Hr. injection Hr as <-. now apply Hne.
Qed.

Lemma well_formed_run (ops : list Op) (rl : RuleList) :
  well_formed rl -> permitted ops rl -> well_formed (run ops rl).
Proof.
  revert rl. induction ops as [|op ops IH]; intros rl Hwf Hok; [exact Hwf|].
  destruct Hok as [Hop Hok]. cbn [run fold_left]. apply IH; [|exact Hok].
  destruct op as [name decl o|rule]; cbn [step].
  - destruct Hop as [Hk Hs]. now apply well_formed_add.
  - now apply well_formed_remove.
Qed.

Lemma well_formed_consistent (rl : RuleList) :
  well_formed rl -> registry_consistent rl.
Proof.
  intros [Hnd Hold Hreg Honly Hsize]. split; [exact Hsize|].
  intros rule Hin Hst. split.
  - apply map_lookup_filter_Some. split; [now apply Hreg | now split].
  - intros s Hs. apply map_lookup_filter_Some in Hs as [_ [_ Hs]]. now symmetry.
Qed.

(** Adding the name ["a"] twice. *)
Definition add_a_twice : list Op :=
  [Add "a" (style "color:red") no_options; Add "a" (style "color:blue") no_options].

(** C1, as stated, fails: after two [add] calls with the same name the
    ordered sequence holds two rules and the key map one entry. *)
Lemma duplicate_name_breaks_consistency :
  ~ registry_consistent (run add_a_twice (constructor plain_options ∅)).
Proof.
  intros [Hsize _]. vm_compute in Hsize. discriminate.
Qed.

(** C1, amended: for every sequence of [add] and [remove] calls in which
    each [add] creates a rule whose key and selector are not yet in the
    map and each [remove] is given a rule of the ordered sequence, the
    ordered sequence is as long as the key map is large, and every style
    rule of the sequence is in the selector map exactly once, under its
    current selector. *)
Theorem permitted_operations_keep_consistency :
  forall (o : RuleListOptions) (cls : gmap string string) (ops : list Op),
    permitted ops (constructor o cls) ->
    registry_consistent (run ops (constructor o cls)).
Proof.
  intros o cls ops Hok. apply well_formed_consistent.
  apply well_formed_run; [apply well_formed_constructor | exact Hok].
Qed.

(** Two rules added under different names, then the first one removed. *)
Definition add_a_b_remove_a : list Op :=
  [Add "a" (style "color:red") no_options;
   Add "b" (style "color:blue") no_options;
   Remove rule_a].

Lemma permitted_operations_keep_consistency_witness :
  registry_consistent (run add_a_b_remove_a (constructor plain_options ∅)).
Proof.
  apply (permitted_operations_keep_consistency plain_options ∅ add_a_b_remove_a).
  repeat split; try reflexivity.
  apply list_elem_of_here.
Defined.

End RuleListFacts.

(* ===================================================================== *)
(** ** Properties of the DOM renderer *)
(* ===================================================================== *)

Module DomRendererFacts.
Import NativeRule DomRenderer.

(** *** The document *)

Lemma same_node_true (a b : Node) : same_node a b = true <-> nid a = nid b.
Proof. unfold same_node. apply Nat.eqb_eq. Qed.

Lemma existsb_same_node (a b : Node) (l : list Node) :
  same_node a b = true -> existsb (same_node a) l = existsb (same_node b) l.
Proof.
  intros H. apply same_node_true in H. induction l as [|c l IH]; [reflexivity|].
  cbn. unfold same_node at 1 3. now rewrite H, IH.
Qed.

(** Nodes with the same identity have the same parent. *)
Lemma parentNode_same (d : Dom) (a b : Node) :
  same_node a b = true -> parentNode d a = parentNode d b.
Proof.
  intros H. unfold parentNode. f_equal.
  induction (map_to_list d) as [|e l IH]; [reflexivity|].
  cbn. unfold is_child at 1 3. rewrite (existsb_same_node a b _ H). now rewrite IH.
Qed.

Lemma parentNode_Some (d : Dom) (n : Node) (p : nat) :
  parentNode d n = Some p -> existsb (same_node n) (childNodes d p) = true.
Proof.
  unfold parentNode. intros H.
  destruct (List.find (is_child n) (map_to_list d)) as [[q cs]|] eqn:Hfind; [|discriminate].
  injection H as <-.
  apply find_some in Hfind as [Hin Hchild].
  apply list_elem_of_In, elem_of_map_to_list in Hin.
  unfold childNodes. now rewrite Hin.
Qed.

Lemma parentNode_None (d : Dom) (n : Node) (p : nat) :
  parentNode d n = None -> existsb (same_node n) (childNodes d p) = false.
Proof.
  unfold parentNode. intros H.
  destruct (List.find (is_child n) (map_to_list d)) as [e|] eqn:Hfind; [discriminate|].
  unfold childNodes. destruct (d !! p) as [cs|] eqn:Hp; [|reflexivity].
  apply (find_none _ _ Hfind (p, cs)).
  now apply list_elem_of_In, elem_of_map_to_list.
Qed.

Lemma without_absent (n : Node) (l : list Node) :
  existsb (same_node n) l = false -> without n l = l.
Proof.
  unfold without. induction l as [|c l IH]; [reflexivity|].
  cbn. intros H. apply orb_false_iff in H as [Hc Hl].
  rewrite Hc. cbn. now rewrite IH.
Qed.

Lemma childNodes_without (d : Dom) (n : Node) (p : nat) :
  childNodes (without n <$> d) p = without n (childNodes d p).
Proof. unfold childNodes. rewrite lookup_fmap. now destruct (d !! p). Qed.

Lemma childNodes_insert (d : Dom) (p : nat) (l : list Node) :
  childNodes (<[p := l]> d) p = l.
Proof. unfold childNodes. now rewrite lookup_insert_eq. Qed.

(** A child list splits at the first node with a given identity. *)
Lemma split_at_first (n : Node) (l : list Node) :
  existsb (same_node n) l = true ->
  exists l1 c l2, l = (l1 ++ c :: l2)%list /\ same_node n c = true
                  /\ existsb (same_node n) l1 = false.
Proof.
  induction l as [|c l IH]; [discriminate|].
  cbn. destruct (same_node n c) eqn:Hc.
  - intros _. exists [], c, l. repeat split; [exact Hc].
  - cbn. intros H. destruct (IH H) as (l1 & c' & l2 & -> & Hc' & Hl1).
    exists (c :: l1), c', l2. repeat split; [exact Hc'|].
    cbn. now rewrite Hc.
Qed.

Lemma insert_before_first (new ref c : Node) (l1 l2 : list Node) :
  same_node ref c = true -> existsb (same_node ref) l1 = false ->
  insert_before new (Some ref) (l1 ++ c :: l2) = (l1 ++ new :: c :: l2)%list.
Proof.
  intros Hc. induction l1 as [|x l1 IH]; cbn.
  - intros _. now rewrite Hc.
  - intros H. apply orb_false_iff in H as [Hx Hl]. rewrite Hx. now rewrite IH.
Qed.

Lemma insert_before_null (new : Node) (l : list Node) :
  insert_before new None l = (l ++ [new])%list.
Proof. induction l as [|c l IH]; [reflexivity|]. cbn. now rewrite IH. Qed.

(** *** The effects of [insertStyle] *)

Lemma find_first {A : Type} (f : A -> bool) (pre : list A) (x : A) (post : list A) :
  f x = true -> (forall y, y ∈ pre -> f y = false) ->
  List.find f (pre ++ x :: post) = Some x.
Proof.
  intros Hx. induction pre as [|y pre IH]; intros Hpre; cbn.
  - now rewrite Hx.
  - rewrite (Hpre y) by apply list_elem_of_here.
    apply IH. intros z Hz. apply Hpre. now apply list_elem_of_further.
Qed.

Lemma find_nowhere {A : Type} (f : A -> bool) (l : list A) :
  (forall y, y ∈ l -> f y = false) -> List.find f l = None.
Proof.
  induction l as [|y l IH]; intros Hl; [reflexivity|]. cbn.
  rewrite (Hl y) by apply list_elem_of_here.
  apply IH. intros z Hz. apply Hl. now apply list_elem_of_further.
Qed.

(** [insertStyle] when the resolver finds a higher sheet. *)
Lemma insertStyle_higher (style : Node) (o : PriorityOptions) (w : World) (nb : StyleSheet) :
  findHigherSheet (registry w) o = Some nb ->
  insertStyle style o w =
    match parentNode (dom w) (renderer_element nb) with
    | Some parent => do_insertBefore parent style (Some (renderer_element nb)) w
    | None => w
    end.
Proof.
  intros Hfind. unfold insertStyle, findPrevNode.
  destruct (registry w) as [|s0 reg] eqn:Hreg; [discriminate|].
  cbn [length]. replace (0 <? Z.of_nat (S (length reg))) with true
    by (symmetry; apply Z.ltb_lt; lia).
  rewrite Hfind. reflexivity.
Qed.

(** A renderer about to attach, after the redeploy that [attach] may do. *)
Lemma attach_dom (eng : Engine) (r : DomRenderer) (w : World) (s : StyleSheet) :
  sheet r = Some s ->
  parentNode (dom w) (element r) = None ->
  exists w1, dom w1 = dom w /\ registry w1 = registry w
             /\ snd (attach eng r w) = insertStyle (element r) (options s) w1.
Proof.
  intros Hs Hp. unfold attach. rewrite Hp, Hs.
  destruct (hasInsertedRules r).
  - unfold deploy. rewrite Hs. cbn. eexists. split; [|split]; [| |reflexivity]; reflexivity.
  - exists w. repeat split; reflexivity.
Qed.

(** C2, amended: on attach the resolver scans the global sheet registry in
    registration order; when the first attached sheet with a strictly
    greater index and the same insertion point (both absent included) has
    a container that is in the document, the new container is put
    immediately before that container, in its parent; when that
    container has no parent, nothing is inserted. *)
Theorem attach_inserts_before_higher_sheet :
  forall (eng : Engine) (r : DomRenderer) (w : World) (s : StyleSheet)
         (pre : list StyleSheet) (nb : StyleSheet) (post : list StyleSheet),
    sheet r = Some s ->
    parentNode (dom w) (element r) = None ->
    registry w = (pre ++ nb :: post)%list ->
    attached nb = true ->
    index (options nb) > index (options s) ->
    same_insertionPoint (insertionPoint (options nb)) (insertionPoint (options s)) = true ->
    (forall x, x ∈ pre -> is_higher (options s) x = false) ->
    (forall p, parentNode (dom w) (renderer_element nb) = Some p ->
       exists l1 c l2,
         same_node (renderer_element nb) c = true
         /\ childNodes (dom w) p = (l1 ++ c :: l2)%list
         /\ childNodes (dom (snd (attach eng r w))) p = (l1 ++ element r :: c :: l2)%list)
    /\ (parentNode (dom w) (renderer_element nb) = None ->
        dom (snd (attach eng r w)) = dom w).
Proof.
  intros eng r w s pre nb post Hs Hp Hreg Hatt Hidx Hip Hpre.
  destruct (attach_dom eng r w s Hs Hp) as (w1 & Hdom & Hreg1 & ->).
  assert (Hfind : findHigherSheet (registry w1) (options s) = Some nb).
  { rewrite Hreg1, Hreg. apply find_first; [|exact Hpre].
    unfold is_higher. rewrite Hatt, Hip.
    replace (index (options nb) >? index (options s)) with true
      by (symmetry; apply Z.gtb_lt; lia).
    reflexivity. }
  rewrite (insertStyle_higher _ _ _ _ Hfind), Hdom.
  split.
  - intros p Hnb. rewrite Hnb. cbn [do_insertBefore emit dom]. rewrite Hdom.
    pose proof (parentNode_Some _ _ _ Hnb) as Hchild.
    destruct (split_at_first _ _ Hchild) as (l1 & c & l2 & Hl & Hc & Hl1).
    exists l1, c, l2. split; [exact Hc|]. split; [exact Hl|].
    unfold insertBefore.
    destruct (same_node (renderer_element nb) (element r)) eqn:Hsame.
    { rewrite (parentNode_same _ _ _ Hsame), Hp in Hnb. discriminate. }
    rewrite childNodes_insert, childNodes_without.
    rewrite without_absent by (now apply parentNode_None).
    rewrite Hl. now apply insert_before_first.
  - intros Hnb. now rewrite Hnb.
Qed.

(** Concrete documents and sheets. *)
Definition toy_engine : Engine :=
  {| parseSheet := fun _ => [];
     parseRule := fun text =>
       Some {| cid := 0; type := STYLE_RULE; selectorText := ""; name := None;
               cssText := text |} |}.

Definition element_node (id : nat) : Node :=
  {| nid := id; nodeType := 1; nodeValue := "" |}.

Definition comment_node (id : nat) (text : string) : Node :=
  {| nid := id; nodeType := 8; nodeValue := text |}.

Definition make_sheet (att : bool) (i : Z) (ip : option InsertionPoint) (el : Node)
    : StyleSheet :=
  {| attached := att; options := {| index := i; insertionPoint := ip |};
     renderer_element := el; rules := RuleListFacts.registry_ab |}.

Definition make_renderer (s : StyleSheet) : DomRenderer :=
  {| element := renderer_element s; sheet := Some s; hasInsertedRules := false;
     textContent := ""; cssRules := [] |}.

(** A node that is not in the document, used as an insertion point by two
    sheets.  Sheet [outside_A] was attached while the node was not in the
    document, so its container was never inserted; sheet [outside_B] has a
    lower index and attaches next. *)
Definition outside_node : Node := element_node 9.
Definition outside_A : StyleSheet :=
  make_sheet true 5 (Some (IPNode outside_node)) (element_node 1).
Definition outside_B : StyleSheet :=
  make_sheet false 1 (Some (IPNode outside_node)) (element_node 2).
Definition outside_world : World :=
  {| dom := {[ headId := [comment_node 7 "jss"] ]};
     registry := [outside_A; outside_B]; log := [] |}.

(** C2, as stated, fails: the resolver finds an attached sheet with a
    greater index and the same insertion point, and the new container is
    not inserted before that sheet's container (it is inserted nowhere),
    because that container has no parent. *)
Lemma higher_sheet_outside_document :
  findHigherSheet (registry outside_world) (options outside_B) = Some outside_A
  /\ parentNode (dom outside_world) (element (make_renderer outside_B)) = None
  /\ ~ exists p l1 c l2,
        same_node (renderer_element outside_A) c = true
        /\ childNodes (dom (snd (attach toy_engine (make_renderer outside_B) outside_world))) p
           = (l1 ++ element (make_renderer outside_B) :: c :: l2)%list.
Proof.
  split; [reflexivity|]. split; [reflexivity|].
  intros (p & l1 & c & l2 & _ & H).
  assert (Hdom : dom (snd (attach toy_engine (make_renderer outside_B) outside_world))
                 = dom outside_world) by reflexivity.
  rewrite Hdom in H.
  assert (Hno : existsb (same_node (element (make_renderer outside_B)))
                  (childNodes (dom outside_world) p) = false)
    by (apply parentNode_None; reflexivity).
  rewrite H, existsb_app in Hno. cbn in Hno.
  rewrite orb_true_r in Hno. discriminate.
Qed.

(** Three attached sheets with the indices 1, 2 and 3 in the head, and a
    fourth with the index 2 that attaches next. *)
Definition sheet_1 : StyleSheet := make_sheet true 1 None (element_node 1).
Definition sheet_2 : StyleSheet := make_sheet true 2 None (element_node 2).
Definition sheet_3 : StyleSheet := make_sheet true 3 None (element_node 3).
Definition sheet_4 : StyleSheet := make_sheet false 2 None (element_node 4).
Definition priorities_world : World :=
  {| dom := {[ headId := [element_node 1; element_node 2; element_node 3] ]};
     registry := [sheet_1; sheet_2; sheet_3; sheet_4]; log := [] |}.

Lemma attach_inserts_before_higher_sheet_witness :
  (forall p, parentNode (dom priorities_world) (renderer_element sheet_3) = Some p ->
     exists l1 c l2,
       same_node (renderer_element sheet_3) c = true
       /\ childNodes (dom priorities_world) p = (l1 ++ c :: l2)%list
       /\ childNodes (dom (snd (attach toy_engine (make_renderer sheet_4) priorities_world))) p
          = (l1 ++ element (make_renderer sheet_4) :: c :: l2)%list)
  /\ (parentNode (dom priorities_world) (renderer_element sheet_3) = None ->
      dom (snd (attach toy_engine (make_renderer sheet_4) priorities_world))
      = dom priorities_world).
Proof.
  apply (attach_inserts_before_higher_sheet toy_engine (make_renderer sheet_4)
           priorities_world sheet_4 [sheet_1; sheet_2] sheet_3 [sheet_4]);
    try reflexivity.
  intros x Hx.
  apply elem_of_cons in Hx as [->|Hx]; [reflexivity|].
  apply elem_of_cons in Hx as [->|Hx]; [reflexivity|].
  inversion Hx.
Defined.

(** The fourth sheet lands between the containers of index 2 and 3. *)
Example attach_fourth_sheet :
  childNodes (dom (snd (attach toy_engine (make_renderer sheet_4) priorities_world))) headId
  = [element_node 1; element_node 2; element_node 4; element_node 3].
Proof. reflexivity. Qed.

(** *** A marker that is not in the head *)

Lemma is_higher_shares (o : PriorityOptions) (sheet : StyleSheet) :
  shares_insertionPoint o sheet = false -> is_higher o sheet = false.
Proof.
  unfold shares_insertionPoint, is_higher.
  destruct (attached sheet); cbn; [|reflexivity].
  intros ->. apply andb_false_r.
Qed.

(** C9, amended: when no attached sheet of the global registry has the
    same insertion point, requesting a non-empty string marker that no
    comment node of the head matches puts the container at the end of the
    head and emits exactly one warning when the marker is not ["jss"],
    and none when it is; [insertStyle] has no failing case on this path. *)
Theorem missing_marker_appends_and_warns :
  forall (style : Node) (o : PriorityOptions) (w : World) (marker : string),
    insertionPoint o = Some (IPString marker) ->
    JS.truthy marker = true ->
    findCommentNode (dom w) marker = None ->
    (forall sheet, sheet ∈ registry w -> shares_insertionPoint o sheet = false) ->
    childNodes (dom (insertStyle style o w)) headId
    = (without style (childNodes (dom w) headId) ++ [style])%list
    /\ log (insertStyle style o w)
       = (log w
          ++ (if String.eqb marker "jss" then [] else [Warning (marker_warning marker)])
          ++ [InsertBefore headId style None])%list.
Proof.
  intros style o w marker Hip Htruthy Hcomment Hnone.
  assert (Hhigher : findHigherSheet (registry w) o = None).
  { apply find_nowhere. intros y Hy. apply is_higher_shares. now apply Hnone. }
  assert (Hhighest : findHighestSheet (registry w) o = None).
  { apply find_nowhere. intros y Hy. apply Hnone.
    apply list_elem_of_In, in_rev. now apply list_elem_of_In. }
  assert (Hprev : findPrevNode o w
                  = (None, warning (String.eqb marker "jss") (marker_warning marker) w)).
  { unfold findPrevNode. rewrite Hhigher, Hhighest.
    unfold findPlaceholder. rewrite Hip, Htruthy, Hcomment.
    now destruct (0 <? Z.of_nat (length (registry w))). }
  unfold insertStyle. rewrite Hprev, Hip.
  unfold do_insertBefore, warning, emit.
  destruct (String.eqb marker "jss"); cbn [dom log registry].
  - split.
    + unfold insertBefore. rewrite childNodes_insert, childNodes_without.
      apply insert_before_null.
    + reflexivity.
  - split.
    + unfold insertBefore. rewrite childNodes_insert, childNodes_without.
      apply insert_before_null.
    + now rewrite <- app_assoc.
Qed.

(** An attached sheet with the marker ["main"], which no comment of the
    head carries, and a second sheet with the same marker and a lower
    index. *)
Definition main_A : StyleSheet :=
  make_sheet true 5 (Some (IPString "main")) (element_node 1).
Definition main_B : StyleSheet :=
  make_sheet false 1 (Some (IPString "main")) (element_node 2).
Definition main_world : World :=
  {| dom := {[ headId := [comment_node 7 "jss"; element_node 1; element_node 8] ]};
     registry := [main_A; main_B]; log := [] |}.

(** C9, as stated, fails: the marker ["main"] has no comment node in the
    head, and the container is put before the container of the attached
    sheet with the same marker, not at the end of the head, and no
    warning is emitted. *)
Lemma missing_marker_with_neighbor :
  insertionPoint (options main_B) = Some (IPString "main")
  /\ findCommentNode (dom main_world) "main" = None
  /\ childNodes (dom (insertStyle (renderer_element main_B) (options main_B) main_world))
       headId
     = [comment_node 7 "jss"; element_node 2; element_node 1; element_node 8]
  /\ log (insertStyle (renderer_element main_B) (options main_B) main_world)
     = [InsertBefore headId (element_node 2) (Some (element_node 1))].
Proof. repeat split; reflexivity. Qed.

(** The same request when the registry holds no attached sheet. *)
Definition lonely_world : World :=
  {| dom := {[ headId := [comment_node 7 "jss"; element_node 8] ]};
     registry := [main_B]; log := [] |}.

Lemma missing_marker_appends_and_warns_witness :
  childNodes (dom (insertStyle (element_node 2) (options main_B) lonely_world)) headId
  = (without (element_node 2) (childNodes (dom lonely_world) headId)
     ++ [element_node 2])%list
  /\ log (insertStyle (element_node 2) (options main_B) lonely_world)
     = (log lonely_world
        ++ (if String.eqb "main" "jss" then []
            else [Warning (marker_warning "main")])
        ++ [InsertBefore headId (element_node 2) None])%list.
Proof.
  apply (missing_marker_appends_and_warns (element_node 2) (options main_B)
           lonely_world "main"); try reflexivity.
  intros sheet Hs. apply elem_of_cons in Hs as [->|Hs]; [reflexivity | inversion Hs].
Defined.

(** The outcome on that input: the container is last, after one warning. *)
Example missing_marker_outcome :
  childNodes (dom (insertStyle (element_node 2) (options main_B) lonely_world)) headId
  = [comment_node 7 "jss"; element_node 8; element_node 2]
  /\ log (insertStyle (element_node 2) (options main_B) lonely_world)
     = [Warning (marker_warning "main"); InsertBefore headId (element_node 2) None].
Proof. split; reflexivity. Qed.

(** An empty marker is falsy: no comment is looked for and nothing is
    reported. *)
Example empty_marker_is_silent :
  log (insertStyle (element_node 2)
         {| index := 1; insertionPoint := Some (IPString "") |} lonely_world)
  = [InsertBefore headId (element_node 2) None].
Proof. reflexivity. Qed.

(** *** Attach and detach *)

Lemma without_removes (n : Node) (l : list Node) :
  existsb (same_node n) (without n l) = false.
Proof.
  unfold without. induction l as [|c l IH]; [reflexivity|]. cbn.
  destruct (same_node n c) eqn:Hc; cbn; [exact IH|]. now rewrite Hc.
Qed.

(** The renderer on its own: [attach] on a renderer whose container
    already has a parent changes neither the renderer nor the document;
    [detach] removes the container from its parent when it has one, and
    throws on a container without a parent. *)
Lemma renderer_attach_and_detach :
  (forall (eng : Engine) (r : DomRenderer) (w : World) (p : nat),
      parentNode (dom w) (element r) = Some p -> attach eng r w = (r, w))
  /\ (forall (r : DomRenderer) (w : World) (p : nat),
         parentNode (dom w) (element r) = Some p ->
         exists w', detach r w = Some (r, w')
                    /\ dom w' = removeChild p (element r) (dom w)
                    /\ existsb (same_node (element r)) (childNodes (dom w') p) = false)
  /\ (forall (r : DomRenderer) (w : World),
         parentNode (dom w) (element r) = None -> detach r w = None).
Proof.
  split; [|split].
  - intros eng r w p Hp. unfold attach. now rewrite Hp.
  - intros r w p Hp. unfold detach. rewrite Hp. eexists. split; [reflexivity|].
    cbn [dom emit]. split; [reflexivity|].
    unfold removeChild. rewrite childNodes_insert. apply without_removes.
  - intros r w Hp. unfold detach. now rewrite Hp.
Qed.

(** C8: attach on an already attached collection, and attach on a
    collection whose container already has a parent, do not throw and
    leave the document, and so the position of the container, as it was
    (the first leaves everything as it was); detach on a collection that
    is not attached does not throw and leaves everything as it was. *)
Theorem attach_attached_and_detach_unattached_are_noops :
  forall (eng : Engine) (r : DomRenderer) (w : World) (s : StyleSheet),
    sheet r = Some s ->
    (attached s = true -> sheet_attach eng r w = (r, w))
    /\ (forall p, parentNode (dom w) (element r) = Some p ->
        attach eng r w = (r, w)
        /\ dom (snd (sheet_attach eng r w)) = dom w
        /\ log (snd (sheet_attach eng r w)) = log w)
    /\ (attached s = false -> sheet_detach r w = Some (r, w)).
Proof.
  intros eng r w s Hs.
  assert (Hflag : is_attached r = attached s) by (unfold is_attached; now rewrite Hs).
  split; [|split].
  - intros Ha. unfold sheet_attach. now rewrite Hflag, Ha.
  - intros p Hp.
    assert (Hattach : attach eng r w = (r, w)) by (unfold attach; now rewrite Hp).
    split; [exact Hattach|].
    unfold sheet_attach. rewrite Hattach.
    destruct (is_attached r); split; reflexivity.
  - intros Ha. unfold sheet_detach. now rewrite Hflag, Ha.
Qed.

Lemma attach_attached_and_detach_unattached_are_noops_witness :
  sheet_attach toy_engine (make_renderer sheet_1) priorities_world
  = (make_renderer sheet_1, priorities_world)
  /\ (attach toy_engine (make_renderer sheet_1) priorities_world
      = (make_renderer sheet_1, priorities_world)
      /\ dom (snd (sheet_attach toy_engine (make_renderer sheet_1) priorities_world))
         = dom priorities_world
      /\ log (snd (sheet_attach toy_engine (make_renderer sheet_1) priorities_world))
         = log priorities_world)
  /\ sheet_detach (make_renderer sheet_4) priorities_world
     = Some (make_renderer sheet_4, priorities_world).
Proof.
  split; [|split].
  - destruct (attach_attached_and_detach_unattached_are_noops toy_engine
                (make_renderer sheet_1) priorities_world sheet_1 eq_refl) as (H & _).
    exact (H eq_refl).
  - destruct (attach_attached_and_detach_unattached_are_noops toy_engine
                (make_renderer sheet_1) priorities_world sheet_1 eq_refl) as (_ & H & _).
    exact (H headId eq_refl).
  - destruct (attach_attached_and_detach_unattached_are_noops toy_engine
                (make_renderer sheet_4) priorities_world sheet_4 eq_refl) as (_ & _ & H).
    exact (H eq_refl).
Defined.

(** The renderer's own [detach] throws on the container of a sheet that is
    not attached and has no parent; the guard of the collection keeps the
    call from reaching it. *)
Example detach_of_unattached_sheet :
  attached outside_B = false
  /\ parentNode (dom outside_world) (element (make_renderer outside_B)) = None
  /\ detach (make_renderer outside_B) outside_world = None
  /\ sheet_detach (make_renderer outside_B) outside_world
     = Some (make_renderer outside_B, outside_world).
Proof. repeat split; reflexivity. Qed.

(** Detaching an attached collection clears its flag, on the renderer's
    sheet and on its entry in the registry, and takes the container out of
    the document; a second detach then changes nothing. *)
Example sheet_detach_clears_flag :
  match sheet_detach (make_renderer sheet_1) priorities_world with
  | Some (r, w) =>
      is_attached r = false
      /\ List.map attached (registry w) = [false; true; true; false]
      /\ parentNode (dom w) (element r) = None
      /\ sheet_detach r w = Some (r, w)
  | None => False
  end.
Proof. repeat split; reflexivity. Qed.

(** *** Per-rule insertion *)

(** C10: [insertRule] with the index 0 does what [insertRule] without an
    index does; when the rule has a text that the engine accepts, the
    native rule goes to the end of the native rule list, at the position
    of the former rule count, and is the result. *)
Theorem insertRule_zero_appends :
  forall (eng : Engine) (rule : RuleList.Rule) (r : DomRenderer) (w : World),
    insertRule eng rule (Some 0) r w = insertRule eng rule None r w
    /\ forall c : CSSOMRule,
         JS.truthy (RuleList.toCss rule None) = true ->
         parseRule eng (RuleList.toCss rule None) = Some c ->
         insertRule eng rule (Some 0) r w
         = (Some c,
            set_hasInsertedRules true (set_cssRules (cssRules r ++ [c])%list r),
            w).
Proof.
  intros eng rule r w. split; [reflexivity|].
  intros c Htext Hparse. unfold insertRule. cbn [Z.eqb].
  rewrite Htext. cbn [negb]. unfold native_insertRule. rewrite Hparse.
  replace (0 <=? Z.of_nat (length (cssRules r))) with true
    by (symmetry; apply Z.leb_le; lia).
  rewrite Z.leb_refl. cbn [andb]. rewrite Nat2Z.id.
  rewrite take_ge, drop_ge by lia.
  rewrite lookup_app_r by lia. rewrite Nat.sub_diag. reflexivity.
Qed.

(** A renderer with two native rules already. *)
Definition native (id : nat) (text : string) : CSSOMRule :=
  {| cid := id; type := STYLE_RULE; selectorText := ""; name := None; cssText := text |}.

Definition two_rules : DomRenderer :=
  {| element := element_node 1; sheet := Some sheet_1; hasInsertedRules := false;
     textContent := ""; cssRules := [native 1 ".x {}"; native 2 ".y {}"] |}.

Lemma insertRule_zero_appends_witness :
  insertRule toy_engine RuleListFacts.rule_a (Some 0) two_rules priorities_world
  = (Some (native 0 "color:red"),
     set_hasInsertedRules true
       (set_cssRules [native 1 ".x {}"; native 2 ".y {}"; native 0 "color:red"] two_rules),
     priorities_world).
Proof.
  destruct (insertRule_zero_appends toy_engine RuleListFacts.rule_a two_rules
              priorities_world) as [_ H].
  apply (H (native 0 "color:red")); reflexivity.
Defined.

(** *** Redeploy on attach *)

(** The resolver and [insertStyle] only add to the effects. *)
Lemma findPlaceholder_log (o : PriorityOptions) (w : World) :
  exists evs, log (snd (findPlaceholder o w)) = (log w ++ evs)%list.
Proof.
  unfold findPlaceholder, warning, emit.
  destruct (insertionPoint o) as [[marker|node]|]; cbn [snd];
    try (exists []; now rewrite app_nil_r).
  destruct (JS.truthy marker); cbn [snd]; [|exists []; now rewrite app_nil_r].
  destruct (findCommentNode (dom w) marker); cbn [snd];
    [exists []; now rewrite app_nil_r|].
  destruct (String.eqb marker "jss"); cbn [log];
    [exists []; now rewrite app_nil_r | now eexists].
Qed.

Lemma findPrevNode_log (o : PriorityOptions) (w : World) :
  exists evs, log (snd (findPrevNode o w)) = (log w ++ evs)%list.
Proof.
  unfold findPrevNode.
  destruct (0 <? Z.of_nat (length (registry w))); [|apply findPlaceholder_log].
  destruct (findHigherSheet (registry w) o); cbn [snd];
    [exists []; now rewrite app_nil_r|].
  destruct (findHighestSheet (registry w) o); cbn [snd];
    [exists []; now rewrite app_nil_r|].
  apply findPlaceholder_log.
Qed.

Lemma insertStyle_log (style : Node) (o : PriorityOptions) (w : World) :
  exists evs, log (insertStyle style o w) = (log w ++ evs)%list.
Proof.
  unfold insertStyle.
  destruct (findPrevNode_log o w) as [evs Hevs].
  destruct (findPrevNode o w) as [prev w1]. cbn [snd] in Hevs.
  unfold do_insertBefore, warning, emit.
  destruct prev as [prev|].
  - destruct (parentNode (dom w1) prev); cbn [log]; rewrite Hevs.
    + eexists. now rewrite <- app_assoc.
    + now eexists.
  - destruct (insertionPoint o) as [[marker|node]|]; cbn [log]; rewrite ?Hevs.
    + eexists. now rewrite <- app_assoc.
    + destruct (parentNode (dom w1) node); cbn [log]; rewrite ?Hevs;
        eexists; now rewrite <- app_assoc.
    + eexists. now rewrite <- app_assoc.
Qed.

(** C5: a successful per-rule insertion sets the flag, which only
    [attach] clears; an [attach] of a renderer with the flag set, whose
    container has no parent (after a detach, say), first overwrites the
    text of the container with the serialization of the registry and
    clears the flag, and then inserts the container into the document. *)
Theorem attach_redeploys_after_insertRule :
  forall eng : Engine,
    (forall (rule : RuleList.Rule) (i : option Z) (r0 : DomRenderer) (w0 : World)
            (c : CSSOMRule) (r1 : DomRenderer) (w1 : World),
        insertRule eng rule i r0 w0 = (Some c, r1, w1) -> hasInsertedRules r1 = true)
    /\ (forall (r : DomRenderer) (w : World), hasInsertedRules (fst (deploy eng r w)) = hasInsertedRules r)
    /\ (forall (r r' : DomRenderer) (w w' : World),
           detach r w = Some (r', w') -> hasInsertedRules r' = hasInsertedRules r)
    /\ (forall (r : DomRenderer) (w : World) (s : StyleSheet),
           hasInsertedRules r = true ->
           sheet r = Some s ->
           parentNode (dom w) (element r) = None ->
           let text := JS.LF +:+ RuleList.toString None (rules s) +:+ JS.LF in
           textContent (fst (attach eng r w)) = text
           /\ hasInsertedRules (fst (attach eng r w)) = false
           /\ snd (attach eng r w)
              = insertStyle (element r) (options s)
                  (emit (SetTextContent (element r) text) w)
           /\ exists evs,
                log (snd (attach eng r w))
                = (log w ++ SetTextContent (element r) text :: evs)%list).
Proof.
  intros eng. split; [|split; [|split]].
  - intros rule i r0 w0 c r1 w1. unfold insertRule.
    destruct (negb (JS.truthy (RuleList.toCss rule None))); [discriminate|].
    destruct (native_insertRule eng (cssRules r0) (RuleList.toCss rule None) _);
      [|discriminate].
    intros H. injection H as _ <- _. reflexivity.
  - intros r w. unfold deploy. now destruct (sheet r).
  - intros r r' w w'. unfold detach.
    destruct (parentNode (dom w) (element r)); [|discriminate].
    intros H. now injection H as <- _.
  - intros r w s Hflag Hs Hp text. unfold attach, deploy.
    rewrite Hp, Hs, Hflag. cbn [fst snd textContent hasInsertedRules set_hasInsertedRules element].
    unfold sheet_toString. fold text.
    repeat split.
    destruct (insertStyle_log (element r) (options s)
                (emit (SetTextContent (element r) text) w)) as [evs Hevs].
    exists evs. rewrite Hevs. cbn [emit log]. now rewrite <- app_assoc.
Qed.

(** A rule is inserted into the attached container of [sheet_1], the
    container is detached, and attached again. *)
Definition after_insertRule : DomRenderer :=
  snd (fst (insertRule toy_engine RuleListFacts.rule_a None
              (make_renderer sheet_1) priorities_world)).

Definition after_detach : DomRenderer * World :=
  default (after_insertRule, priorities_world)
    (detach after_insertRule priorities_world).

Definition deployed_text : string :=
  JS.LF +:+ "color:red" +:+ JS.LF +:+ "color:blue" +:+ JS.LF.

Lemma attach_redeploys_after_insertRule_witness :
  textContent (fst (attach toy_engine (fst after_detach) (snd after_detach)))
  = deployed_text
  /\ hasInsertedRules (fst (attach toy_engine (fst after_detach) (snd after_detach)))
     = false
  /\ snd (attach toy_engine (fst after_detach) (snd after_detach))
     = insertStyle (element_node 1) (options sheet_1)
         (emit (SetTextContent (element_node 1) deployed_text) (snd after_detach))
  /\ exists evs,
       log (snd (attach toy_engine (fst after_detach) (snd after_detach)))
       = (log (snd after_detach)
          ++ SetTextContent (element_node 1) deployed_text :: evs)%list.
Proof.
  destruct (attach_redeploys_after_insertRule toy_engine) as (Hset & _ & Hkeep & Hattach).
  apply (Hattach (fst after_detach) (snd after_detach) sheet_1).
  - rewrite (Hkeep after_insertRule (fst after_detach) priorities_world
               (snd after_detach) eq_refl).
    apply (Hset RuleListFacts.rule_a None (make_renderer sheet_1) priorities_world
             (native 0 "color:red") after_insertRule priorities_world).
    reflexivity.
  - reflexivity.
  - reflexivity.
Defined.

(** The effects of that run, in order: the removal, the redeploy, the
    insertion before the container of the higher sheet. *)
Example detach_attach_effects :
  log (snd (attach toy_engine (fst after_detach) (snd after_detach)))
  = [RemoveChild headId (element_node 1);
     SetTextContent (element_node 1) deployed_text;
     InsertBefore headId (element_node 1) (Some (element_node 2))].
Proof. reflexivity. Qed.

End DomRendererFacts.

(* ===================================================================== *)
(** ** Further properties of the rule registry *)
(* ===================================================================== *)

Module RuleListMore.
Import NativeRule RuleList RuleListFacts.

(** *** Adding *)

(** What [add] does to [raw] and [classes], and which rule it creates. *)
Lemma add_details (name : string) (decl : JssStyle) (o : RuleOptions) (rl : RuleList) :
  let rule := fst (add name decl o rl) in
  let rl' := snd (add name decl o rl) in
  raw rl' = <[name := decl]> (raw rl)
  /\ isStyleRule rule = styleVariant decl
  /\ toCss rule = body decl
  /\ options rl' = options rl
  /\ renderable rl' = renderable rl.
Proof.
  unfold add. cbn zeta.
  set (o1 := match JS.get_property (classes rl) name with Some _ => _ | None => _ end).
  set (className := if (_ : bool) then Some _ else @None string).
  cbn [fst snd]. repeat split; destruct className; reflexivity.
Qed.

(** X1: The rule just added is what [get] returns for its name and, when it is
    a style rule, for its selector; the declaration is kept in [raw]. *)
Theorem add_then_get :
  forall (name : string) (decl : JssStyle) (o : RuleOptions) (rl : RuleList),
    get name (snd (add name decl o rl)) = Some (fst (add name decl o rl))
    /\ raw (snd (add name decl o rl)) !! name = Some decl
    /\ (styleVariant decl = true ->
        get (JS.to_str (selector (fst (add name decl o rl)))) (snd (add name decl o rl))
        = Some (fst (add name decl o rl))).
Proof.
  intros name decl o rl.
  destruct (add_effect name decl o rl) as (Hkey & _ & _ & Hmap & _).
  destruct (add_details name decl o rl) as (Hraw & Hstyle & _).
  cbn zeta in *. unfold get. rewrite Hmap, Hraw, Hstyle.
  split; [|split].
  - destruct (styleVariant decl); [|apply lookup_insert_eq].
    destruct (decide (JS.to_str (selector (fst (add name decl o rl))) = name)) as [->|Hne].
    + apply lookup_insert_eq.
    + rewrite lookup_insert_ne by exact Hne. apply lookup_insert_eq.
  - apply lookup_insert_eq.
  - intros ->. apply lookup_insert_eq.
Qed.

Definition fresh_registry : RuleList := constructor plain_options ∅.

Lemma add_then_get_witness :
  get ".a-0" (snd (add "a" (style "color:red") no_options fresh_registry))
  = Some (fst (add "a" (style "color:red") no_options fresh_registry)).
Proof.
  destruct (add_then_get "a" (style "color:red") no_options fresh_registry)
    as (_ & _ & H).
  exact (H eq_refl).
Defined.

Lemma Object_prototype_truthy (name c : string) :
  JS.Object_prototype name = Some c -> JS.truthy c = true.
Proof.
  unfold JS.Object_prototype.
  destruct (String.eqb name "constructor"); [intros H; injection H as <-; reflexivity|].
  destruct (String.eqb name "__proto__"); [intros H; injection H as <-; reflexivity|].
  destruct (existsb _ _); [intros H; injection H as <-; reflexivity | discriminate].
Qed.

(** X2: The selector of a created style rule: the one given in the options;
    otherwise what reading the name on the shared class map gives, when
    that is truthy, and the generator then is not asked: the class the
    map has for the name, or, when the map has none, the member of that
    name that every object inherits (for the name ["constructor"], the
    text of the function [Object]); otherwise the generated class, which
    is recorded in the class map under the name unless it is empty.  A
    rule that is not a style rule gets no selector and the class map is
    not touched. *)
Theorem add_selector :
  forall (name : string) (decl : JssStyle) (o : RuleOptions) (rl : RuleList),
    let rule := fst (add name decl o rl) in
    let rl' := snd (add name decl o rl) in
    (styleVariant decl = false -> selector rule = None /\ classes rl' = classes rl)
    /\ (styleVariant decl = true -> JS.truthy_opt (opt_selector o) = true ->
        selector rule = opt_selector o /\ classes rl' = classes rl)
    /\ (forall c, styleVariant decl = true -> JS.truthy_opt (opt_selector o) = false ->
        classes rl !! name = Some c -> JS.truthy c = true ->
        selector rule = Some ("." +:+ c) /\ classes rl' = classes rl)
    /\ (forall c, styleVariant decl = true -> JS.truthy_opt (opt_selector o) = false ->
        classes rl !! name = None -> JS.Object_prototype name = Some c ->
        selector rule = Some ("." +:+ c) /\ classes rl' = classes rl)
    /\ (styleVariant decl = true -> JS.truthy_opt (opt_selector o) = false ->
        JS.truthy_opt (JS.get_property (classes rl) name) = false ->
        let generated :=
          generateClassName (options rl) (createRule (nextId rl) name decl o) in
        selector rule = Some ("." +:+ generated)
        /\ classes rl' = (if JS.truthy generated
                          then <[name := generated]> (classes rl)
                          else classes rl)).
Proof.
  intros name decl o rl.
  assert (Hknown : forall c, styleVariant decl = true ->
            JS.truthy_opt (opt_selector o) = false ->
            JS.get_property (classes rl) name = Some c -> JS.truthy c = true ->
            selector (fst (add name decl o rl)) = Some ("." +:+ c)
            /\ classes (snd (add name decl o rl)) = classes rl).
  { intros c Hd Ho Hc Hct. unfold add, register, set_index, createRule. cbn.
    rewrite Hd, Ho, Hc, Hct. cbn. rewrite ?Hd. cbn. split; reflexivity. }
  unfold add, register, set_index, createRule in *. cbn in *.
  split; [|split; [|split; [|split]]].
  - intros Hd. rewrite Hd.
    destruct (JS.get_property (classes rl) name) as [c|];
      [destruct (negb (JS.truthy_opt (opt_selector o)) && JS.truthy c)|];
      cbn; rewrite ?andb_false_r; cbn; split; reflexivity.
  - intros Hd Ho. rewrite Hd, Ho. cbn.
    destruct (JS.get_property (classes rl) name) as [c|]; cbn; rewrite ?Hd, ?Ho; cbn;
      split; reflexivity.
  - intros c Hd Ho Hc Hct. apply (Hknown c Hd Ho); [|exact Hct].
    unfold JS.get_property. now rewrite Hc.
  - intros c Hd Ho Hown Hc. apply (Hknown c Hd Ho).
    + unfold JS.get_property. now rewrite Hown.
    + now apply (Object_prototype_truthy name).
  - intros Hd Ho Hcls. rewrite Hd, Ho.
    destruct (JS.get_property (classes rl) name) as [c|]; cbn in Hcls; rewrite ?Hcls; cbn;
      rewrite ?Hd, ?Ho; cbn; split; reflexivity.
Qed.

Definition with_selector (sel : string) : RuleOptions :=
  {| opt_selector := Some sel; opt_index := None |}.

Definition known_classes : gmap string string := {[ "a" := "a-known" ]}.

Lemma add_selector_witness :
  (selector (fst (add "k" (opaque "x") no_options fresh_registry)) = None
   /\ classes (snd (add "k" (opaque "x") no_options fresh_registry))
      = classes fresh_registry)
  /\ (selector (fst (add "a" (style "x") (with_selector ".mine") fresh_registry))
      = Some ".mine"
      /\ classes (snd (add "a" (style "x") (with_selector ".mine") fresh_registry))
         = classes fresh_registry)
  /\ (selector (fst (add "a" (style "x") no_options (constructor plain_options known_classes)))
      = Some ".a-known"
      /\ classes (snd (add "a" (style "x") no_options (constructor plain_options known_classes)))
         = known_classes)
  /\ (selector (fst (add "constructor" (style "x") no_options fresh_registry))
      = Some ".function Object() { [native code] }"
      /\ classes (snd (add "constructor" (style "x") no_options fresh_registry))
         = classes fresh_registry)
  /\ (selector (fst (add "a" (style "x") no_options fresh_registry)) = Some ".a-0"
      /\ classes (snd (add "a" (style "x") no_options fresh_registry))
         = <[ "a" := "a-0" ]> ∅).
Proof.
  split; [|split; [|split; [|split]]].
  - destruct (add_selector "k" (opaque "x") no_options fresh_registry) as (H & _).
    exact (H eq_refl).
  - destruct (add_selector "a" (style "x") (with_selector ".mine") fresh_registry)
      as (_ & H & _).
    exact (H eq_refl eq_refl).
  - destruct (add_selector "a" (style "x") no_options
                (constructor plain_options known_classes)) as (_ & _ & H & _).
    exact (H "a-known" eq_refl eq_refl eq_refl eq_refl).
  - destruct (add_selector "constructor" (style "x") no_options fresh_registry)
      as (_ & _ & _ & H & _).
    exact (H (JS.native_function "Object") eq_refl eq_refl eq_refl eq_refl).
  - destruct (add_selector "a" (style "x") no_options fresh_registry)
      as (_ & _ & _ & _ & H).
    exact (H eq_refl eq_refl eq_refl).
Defined.

Lemma splice_insert_at {A : Type} (l : list A) (i : Z) (x : A) :
  JS.splice l i 0 [x]
  = (take (Z.to_nat (if i <? 0 then Z.max (Z.of_nat (length l) + i) 0
                     else Z.min i (Z.of_nat (length l)))) l
     ++ x :: drop (Z.to_nat (if i <? 0 then Z.max (Z.of_nat (length l) + i) 0
                             else Z.min i (Z.of_nat (length l)))) l)%list.
Proof.
  unfold JS.splice.
  set (from := if i <? 0 then Z.max (Z.of_nat (length l) + i) 0
               else Z.min i (Z.of_nat (length l))).
  assert (Hfrom : 0 <= from <= Z.of_nat (length l)).
  { subst from. destruct (i <? 0) eqn:Hi; lia. }
  replace (Z.min (Z.max 0 0) (Z.of_nat (length l) - from)) with 0 by lia.
  now rewrite Z.add_0_r.
Qed.

Lemma add_index (name : string) (decl : JssStyle) (o : RuleOptions) (rl : RuleList) :
  index (snd (add name decl o rl))
  = JS.splice (index rl)
      (match opt_index o with
       | None => Z.of_nat (length (index rl))
       | Some i => i
       end) 0 [fst (add name decl o rl)].
Proof.
  unfold add, register, set_index. cbn.
  destruct (JS.get_property (classes rl) name) as [c|];
    [destruct (negb (JS.truthy_opt (opt_selector o)) && JS.truthy c)|];
    reflexivity.
Qed.

(** X3: Where [add] puts the rule: at the end without an index; at the
    position [i] for an index within the sequence, the rules from there on
    moving up by one; at the end for an index beyond the end; and for a
    negative index [i], before the last [-i] rules (at the start when
    there are fewer). *)
Theorem add_position :
  forall (name : string) (decl : JssStyle) (o : RuleOptions) (rl : RuleList),
    let rule := fst (add name decl o rl) in
    let rl' := snd (add name decl o rl) in
    (opt_index o = None -> index rl' = (index rl ++ [rule])%list)
    /\ (forall i, opt_index o = Some i -> 0 <= i <= Z.of_nat (length (index rl)) ->
        index rl' = (take (Z.to_nat i) (index rl) ++ rule :: drop (Z.to_nat i) (index rl))%list
        /\ index rl' !! Z.to_nat i = Some rule)
    /\ (forall i, opt_index o = Some i -> Z.of_nat (length (index rl)) < i ->
        index rl' = (index rl ++ [rule])%list)
    /\ (forall i, opt_index o = Some i -> i < 0 ->
        index rl' = (take (length (index rl) - Z.to_nat (- i)) (index rl)
                     ++ rule :: drop (length (index rl) - Z.to_nat (- i)) (index rl))%list).
Proof.
  intros name decl o rl rule rl'. subst rule rl'.
  rewrite add_index, splice_insert_at.
  split; [|split; [|split]].
  - intros ->. replace (Z.of_nat (length (index rl)) <? 0) with false
      by (symmetry; apply Z.ltb_ge; lia).
    rewrite Z.min_id, Nat2Z.id, take_ge, drop_ge by lia. reflexivity.
  - intros i -> Hi. replace (i <? 0) with false by (symmetry; apply Z.ltb_ge; lia).
    rewrite Z.min_l by lia. split; [reflexivity|].
    rewrite lookup_app_r by (rewrite length_take; lia).
    rewrite length_take. replace (Z.to_nat i - Z.to_nat i `min` length (index rl))%nat
      with 0%nat by lia. reflexivity.
  - intros i -> Hi. replace (i <? 0) with false by (symmetry; apply Z.ltb_ge; lia).
    rewrite Z.min_r by lia. rewrite Nat2Z.id, take_ge, drop_ge by lia. reflexivity.
  - intros i -> Hi. replace (i <? 0) with true by (symmetry; apply Z.ltb_lt; lia).
    replace (Z.to_nat (Z.max (Z.of_nat (length (index rl)) + i) 0))
      with (length (index rl) - Z.to_nat (- i))%nat by lia.
    reflexivity.
Qed.

Definition at_index (i : Z) : RuleOptions :=
  {| opt_selector := None; opt_index := Some i |}.

Lemma add_position_witness :
  index (snd (add "c" (style "x") no_options registry_ab))
  = [rule_a; rule_b; fst (add "c" (style "x") no_options registry_ab)]
  /\ index (snd (add "c" (style "x") (at_index 1) registry_ab))
     = [rule_a; fst (add "c" (style "x") (at_index 1) registry_ab); rule_b]
  /\ index (snd (add "c" (style "x") (at_index 7) registry_ab))
     = [rule_a; rule_b; fst (add "c" (style "x") (at_index 7) registry_ab)]
  /\ index (snd (add "c" (style "x") (at_index (-1)) registry_ab))
     = [rule_a; fst (add "c" (style "x") (at_index (-1)) registry_ab); rule_b].
Proof.
  split; [|split; [|split]].
  - destruct (add_position "c" (style "x") no_options registry_ab) as (H & _).
    exact (H eq_refl).
  - destruct (add_position "c" (style "x") (at_index 1) registry_ab) as (_ & H & _).
    refine (proj1 (H 1 eq_refl _)). change (0 <= 1 <= 2). lia.
  - destruct (add_position "c" (style "x") (at_index 7) registry_ab) as (_ & _ & H & _).
    refine (H 7 eq_refl _). change (2 < 7). lia.
  - destruct (add_position "c" (style "x") (at_index (-1)) registry_ab)
      as (_ & _ & _ & H).
    refine (H (-1) eq_refl _). lia.
Defined.

(** *** Finding and removing *)

(** The loop behind both [indexOf] functions: the result is [-1] when no
    element passes the test, and otherwise the position, counted from
    [k], of the first element that passes it. *)
Lemma find_index_from_spec {A : Type} (same : A -> bool) (l : list A) (k : Z) :
  (JS.find_index_from same k l = -1 /\ forall x, x ∈ l -> same x = false)
  \/ exists (j : nat) (x : A),
       JS.find_index_from same k l = k + Z.of_nat j
       /\ l !! j = Some x /\ same x = true
       /\ forall (j' : nat) (y : A), (j' < j)%nat -> l !! j' = Some y -> same y = false.
Proof.
  revert k. induction l as [|x l IH]; intros k.
  - left. split; [reflexivity|]. intros x Hx. inversion Hx.
  - cbn [JS.find_index_from]. destruct (same x) eqn:Hx.
    + right. exists 0%nat, x. repeat split; [lia | exact Hx | intros; lia].
    + destruct (IH (k + 1)) as [[Hnone Hall]|(j & y & Hj & Hl & Hy & Hfirst)].
      * left. split; [exact Hnone|]. intros z Hz.
        apply elem_of_cons in Hz as [->|Hz]; [exact Hx | now apply Hall].
      * right. exists (S j), y. repeat split; [lia | exact Hl | exact Hy |].
        intros [|j'] z Hlt Hz; [cbn in Hz; congruence|].
        apply (Hfirst j' z); [lia | exact Hz].
Qed.

(** X4: [indexOf] is [-1] exactly when no rule of the sequence is the given
    rule object; otherwise it is a position within the sequence, the rule
    at that position is the given rule object, and no earlier one is. *)
Theorem indexOf_first_position :
  forall (rule : Rule) (rl : RuleList),
    (indexOf rule rl = -1 <-> forall r, r ∈ index rl -> rid r <> rid rule)
    /\ (indexOf rule rl <> -1 ->
        0 <= indexOf rule rl < Z.of_nat (length (index rl))
        /\ exists r, index rl !! Z.to_nat (indexOf rule rl) = Some r
                     /\ rid r = rid rule
                     /\ forall (j : nat) (r' : Rule),
                          Z.of_nat j < indexOf rule rl -> index rl !! j = Some r' ->
                          rid r' <> rid rule).
Proof.
  intros rule rl. unfold indexOf.
  destruct (find_index_from_spec (same_rule rule) (index rl) 0)
    as [[Hnone Hall]|(j & x & Hj & Hl & Hx & Hfirst)].
  - split; [|congruence]. split; [|intros _; exact Hnone].
    intros _ r Hr Heq. specialize (Hall r Hr).
    unfold same_rule in Hall. rewrite Heq, Nat.eqb_refl in Hall. discriminate.
  - rewrite Hj, Z.add_0_l. split.
    + split; [lia|]. intros Hall. exfalso.
      apply (Hall x); [now apply list_elem_of_lookup_2 in Hl|].
      apply same_rule_true in Hx. congruence.
    + intros _. split; [apply lookup_lt_Some in Hl; lia|].
      exists x. rewrite Nat2Z.id. split; [exact Hl|].
      split; [apply same_rule_true in Hx; congruence|].
      intros j' r' Hlt Hr' Heq.
      assert (Hfalse : same_rule rule r' = false) by (apply (Hfirst j' r'); [lia | exact Hr']).
      unfold same_rule in Hfalse. rewrite Heq, Nat.eqb_refl in Hfalse. discriminate.
Qed.

Lemma indexOf_first_position_witness :
  0 <= indexOf rule_b registry_ab < Z.of_nat (length (index registry_ab))
  /\ exists r, index registry_ab !! Z.to_nat (indexOf rule_b registry_ab) = Some r
               /\ rid r = rid rule_b
               /\ forall (j : nat) (r' : Rule),
                    Z.of_nat j < indexOf rule_b registry_ab ->
                    index registry_ab !! j = Some r' -> rid r' <> rid rule_b.
Proof.
  destruct (indexOf_first_position rule_b registry_ab) as [_ H].
  apply H. change (1 <> -1). lia.
Defined.

Lemma filter_out_distinct (rule : Rule) (l1 l2 : list Rule) :
  NoDup (rid <$> (l1 ++ rule :: l2)%list) ->
  List.filter (fun r => negb (same_rule rule r)) (l1 ++ rule :: l2) = (l1 ++ l2)%list.
Proof.
  intros Hnd.
  assert (Hkeep : forall l, (forall r, r ∈ l -> rid r <> rid rule) ->
                  List.filter (fun r => negb (same_rule rule r)) l = l).
  { induction l as [|x l IH]; intros Hl; [reflexivity|]. cbn.
    assert (Hx : same_rule rule x = false).
    { apply Nat.eqb_neq. intros Heq. apply (Hl x); [apply list_elem_of_here | congruence]. }
    rewrite Hx. cbn. rewrite IH; [reflexivity|].
    intros r Hr. apply Hl. now apply list_elem_of_further. }
  rewrite fmap_app, fmap_cons in Hnd.
  apply NoDup_app in Hnd as (Hnd1 & Hdisj & Hnd2).
  apply NoDup_cons in Hnd2 as [Hnot2 _].
  rewrite List.filter_app. cbn.
  unfold same_rule at 2. rewrite Nat.eqb_refl. cbn.
  rewrite !Hkeep; [reflexivity| |].
  - intros r Hr Heq. apply Hnot2. rewrite <- Heq. now apply list_elem_of_fmap_2.
  - intros r Hr Heq. apply (Hdisj (rid r)); [now apply list_elem_of_fmap_2|].
    rewrite Heq. apply list_elem_of_here.
Qed.

(** X5: Removing a rule of a well-formed registry: the sequence loses that
    rule and keeps the others in their order, [get] no longer finds the
    rule under its key, every other rule is still found under its key,
    and the declaration stays in [raw]. *)
Theorem remove_present :
  forall (rule : Rule) (rl : RuleList),
    well_formed rl -> rule ∈ index rl ->
    index (remove rule rl)
    = List.filter (fun r => negb (same_rule rule r)) (index rl)
    /\ length (index (remove rule rl)) = Nat.pred (length (index rl))
    /\ get (key rule) (remove rule rl) = None
    /\ (forall r, r ∈ index rl -> r <> rule -> get (key r) (remove rule rl) = Some r)
    /\ raw (remove rule rl) = raw rl.
Proof.
  intros rule rl Hwf Hin.
  pose proof (well_formed_remove rule rl Hwf Hin) as Hwf'.
  destruct Hwf as [Hnd Hold Hreg Honly Hsize].
  destruct (remove_effect rule rl Hnd Hin) as (_ & Hmap & l1 & l2 & Hidx & Hidx').
  split; [|split; [|split; [|split]]].
  - rewrite Hidx', Hidx. symmetry. apply filter_out_distinct. now rewrite <- Hidx.
  - rewrite Hidx', Hidx, !length_app. cbn. lia.
  - unfold get. rewrite Hmap. destruct (isStyleRule rule).
    + destruct (decide (JS.to_str (selector rule) = key rule)) as [->|Hne].
      * apply lookup_delete_eq.
      * rewrite lookup_delete_ne by exact Hne. apply lookup_delete_eq.
    + apply lookup_delete_eq.
  - intros r Hr Hne. apply (wf_registered _ Hwf').
    rewrite Hidx in Hr. rewrite Hidx'.
    apply elem_of_app in Hr as [Hr|Hr]; [apply elem_of_app; now left|].
    apply elem_of_cons in Hr as [->|Hr]; [congruence|]. apply elem_of_app; now right.
  - reflexivity.
Qed.

Lemma well_formed_registry_ab : well_formed registry_ab.
Proof.
  apply (well_formed_run [Add "a" (style "color:red") no_options;
                          Add "b" (style "color:blue") no_options]
           (constructor plain_options ∅)).
  - apply well_formed_constructor.
  - repeat split; reflexivity.
Qed.

Lemma remove_present_witness :
  index (remove rule_a registry_ab)
  = List.filter (fun r => negb (same_rule rule_a r)) (index registry_ab)
  /\ length (index (remove rule_a registry_ab)) = Nat.pred (length (index registry_ab))
  /\ get (key rule_a) (remove rule_a registry_ab) = None
  /\ (forall r, r ∈ index registry_ab -> r <> rule_a ->
      get (key r) (remove rule_a registry_ab) = Some r)
  /\ raw (remove rule_a registry_ab) = raw registry_ab.
Proof.
  apply (remove_present rule_a registry_ab).
  - exact well_formed_registry_ab.
  - apply list_elem_of_here.
Defined.

(** X6: Adding a rule under a new key and selector and removing it again gives
    back the map and the ordered sequence; the declaration stays in
    [raw]. *)
Theorem add_then_remove :
  forall (name : string) (decl : JssStyle) (o : RuleOptions) (rl : RuleList),
    well_formed rl ->
    map rl !! name = None ->
    (styleVariant decl = true ->
     map rl !! JS.to_str (selector (fst (add name decl o rl))) = None) ->
    let rule := fst (add name decl o rl) in
    let rl' := snd (add name decl o rl) in
    map (remove rule rl') = map rl
    /\ index (remove rule rl') = index rl
    /\ raw (remove rule rl') !! name = Some decl.
Proof.
  intros name decl o rl Hwf Hfresh Hfresh_sel rule rl'.
  destruct (add_effect name decl o rl) as (Hkey & Hrid & _ & Hmap & k & Hidx).
  destruct (add_details name decl o rl) as (Hraw & Hstyle & _).
  fold rule rl' in Hkey, Hrid, Hmap, Hidx, Hraw, Hstyle.
  assert (Hwf' : well_formed rl').
  { apply well_formed_add; [exact Hwf | now fold rule; rewrite Hkey |].
    fold rule. rewrite Hstyle. exact Hfresh_sel. }
  assert (Hin : rule ∈ index rl').
  { rewrite Hidx. apply elem_of_app. right. apply list_elem_of_here. }
  destruct (remove_present rule rl' Hwf' Hin) as (Hfilter & _ & _ & _ & Hraw').
  destruct (remove_effect rule rl' (wf_distinct _ Hwf') Hin) as (_ & Hmap' & _).
  split; [|split].
  - rewrite Hmap', Hmap, Hkey, Hstyle.
    destruct (styleVariant decl) eqn:Hsv.
    + specialize (Hfresh_sel eq_refl). fold rule in Hfresh_sel.
      apply map_eq. intros k0.
      destruct (decide (k0 = JS.to_str (selector rule))) as [->|Hs].
      * now rewrite lookup_delete_eq.
      * rewrite lookup_delete_ne by congruence.
        destruct (decide (k0 = name)) as [->|Hn].
        -- now rewrite lookup_delete_eq.
        -- rewrite lookup_delete_ne by congruence.
           now rewrite !lookup_insert_ne by congruence.
    + apply map_eq. intros k0.
      destruct (decide (k0 = name)) as [->|Hn].
      * now rewrite lookup_delete_eq.
      * rewrite lookup_delete_ne by congruence.
        now rewrite lookup_insert_ne by congruence.
  - rewrite Hfilter, Hidx.
    assert (Hnd : NoDup (rid <$> (take k (index rl) ++ rule :: drop k (index rl))%list)).
    { rewrite <- Hidx. exact (wf_distinct _ Hwf'). }
    rewrite (filter_out_distinct _ _ _ Hnd). apply take_drop.
  - rewrite Hraw', Hraw. apply lookup_insert_eq.
Qed.

Lemma add_then_remove_witness :
  map (remove (fst (add "c" (style "x") no_options registry_ab))
         (snd (add "c" (style "x") no_options registry_ab)))
  = map registry_ab
  /\ index (remove (fst (add "c" (style "x") no_options registry_ab))
              (snd (add "c" (style "x") no_options registry_ab)))
     = index registry_ab
  /\ raw (remove (fst (add "c" (style "x") no_options registry_ab))
            (snd (add "c" (style "x") no_options registry_ab))) !! "c"
     = Some (style "x").
Proof.
  apply (add_then_remove "c" (style "x") no_options registry_ab).
  - exact well_formed_registry_ab.
  - reflexivity.
  - intros _. reflexivity.
Defined.

(** X7: Every registry reached from an empty one by permitted operations has
    distinct rule objects in its sequence, finds every rule of the
    sequence under its key, and has no map entry for a rule that is not in
    the sequence. *)
Theorem permitted_operations_keep_map_and_sequence_together :
  forall (o : RuleListOptions) (cls : gmap string string) (ops : list Op),
    permitted ops (constructor o cls) ->
    let rl := run ops (constructor o cls) in
    NoDup (rid <$> index rl)
    /\ (forall rule, rule ∈ index rl -> get (key rule) rl = Some rule)
    /\ (forall k rule, get k rl = Some rule -> rule ∈ index rl).
Proof.
  intros o cls ops Hok rl.
  assert (Hwf : well_formed rl).
  { apply well_formed_run; [apply well_formed_constructor | exact Hok]. }
  destruct Hwf as [Hnd _ Hreg Honly _].
  split; [exact Hnd|]. split.
  - intros rule Hin. now apply Hreg.
  - intros k rule Hk. now apply Honly in Hk.
Qed.

Lemma permitted_operations_keep_map_and_sequence_together_witness :
  NoDup (rid <$> index (run add_a_b_remove_a (constructor plain_options ∅)))
  /\ (forall rule, rule ∈ index (run add_a_b_remove_a (constructor plain_options ∅)) ->
      get (key rule) (run add_a_b_remove_a (constructor plain_options ∅)) = Some rule)
  /\ (forall k rule,
        get k (run add_a_b_remove_a (constructor plain_options ∅)) = Some rule ->
        rule ∈ index (run add_a_b_remove_a (constructor plain_options ∅))).
Proof.
  apply (permitted_operations_keep_map_and_sequence_together plain_options ∅
           add_a_b_remove_a).
  repeat split; try reflexivity.
  apply list_elem_of_here.
Defined.

(** *** Serialization *)

Lemma join_lines_empty (l : list string) :
  (forall s, s ∈ l -> JS.truthy s = true) -> join_lines l = "" -> l = [].
Proof.
  destruct l as [|x l]; [reflexivity|]. intros Hl Hjoin. exfalso.
  assert (Hx : JS.truthy x = true) by (apply Hl, list_elem_of_here).
  destruct l as [|y l].
  - cbn in Hjoin. subst x. discriminate.
  - rewrite join_lines_cons in Hjoin by discriminate.
    destruct x; [discriminate|]. discriminate.
Qed.

Lemma toString_as_join (o : option ToCssOptions) (rl : RuleList) :
  toString o rl = join_lines (nonempty_bodies o (index rl)).
Proof.
  unfold toString. rewrite toString_loop.
  destruct (nonempty_bodies o (index rl)); reflexivity.
Qed.

(** X8: The output of [toString] is empty exactly when every rule of the
    sequence serializes to the empty string. *)
Theorem toString_empty :
  forall (o : option ToCssOptions) (rl : RuleList),
    toString o rl = "" <-> forall rule, rule ∈ index rl -> toCss rule o = "".
Proof.
  intros o rl. rewrite toString_as_join. unfold nonempty_bodies. split.
  - intros Hempty rule Hin.
    apply join_lines_empty in Hempty.
    + destruct (JS.truthy (toCss rule o)) eqn:Ht; [|now destruct (toCss rule o)].
      assert (Hmem : In (toCss rule o)
                       (List.filter JS.truthy (List.map (fun r => toCss r o) (index rl)))).
      { apply filter_In. split; [|exact Ht].
        apply in_map_iff. exists rule. split; [reflexivity | now apply list_elem_of_In]. }
      rewrite Hempty in Hmem. inversion Hmem.
    + intros s Hs. apply list_elem_of_In, filter_In in Hs. tauto.
  - intros Hall.
    assert (Hnil : List.filter JS.truthy (List.map (fun r => toCss r o) (index rl)) = []).
    { induction (index rl) as [|r l IH]; [reflexivity|]. cbn.
      rewrite (Hall r) by apply list_elem_of_here. cbn.
      apply IH. intros r' Hr'. apply Hall. now apply list_elem_of_further. }
    now rewrite Hnil.
Qed.

Lemma join_lines_truthy (l : list string) :
  (forall s, s ∈ l -> JS.truthy s = true) -> l <> [] -> JS.truthy (join_lines l) = true.
Proof.
  intros Hl Hne. destruct (join_lines l) eqn:Hjoin; [|reflexivity].
  apply join_lines_empty in Hjoin; [contradiction | exact Hl].
Qed.

Lemma nonempty_bodies_truthy (o : option ToCssOptions) (l : list Rule) (s : string) :
  s ∈ nonempty_bodies o l -> JS.truthy s = true.
Proof. intros Hs. apply list_elem_of_In, filter_In in Hs. tauto. Qed.

(** X9: The serialization of a sequence made of two parts is the serialization
    of the first part followed by that of the second, with one line feed
    between them when neither is empty. *)
Theorem toString_of_two_parts :
  forall (o : option ToCssOptions) (rl rl1 rl2 : RuleList),
    index rl = (index rl1 ++ index rl2)%list ->
    toString o rl
    = if JS.truthy (toString o rl1) && JS.truthy (toString o rl2)
      then toString o rl1 +:+ JS.LF +:+ toString o rl2
      else toString o rl1 +:+ toString o rl2.
Proof.
  intros o rl rl1 rl2 Hidx.
  unfold toString at 1. rewrite Hidx, fold_left_app.
  fold (toString o rl1). rewrite toString_loop.
  rewrite (toString_as_join o rl2).
  destruct (nonempty_bodies o (index rl2)) as [|b bs] eqn:Hb.
  - cbn [join_lines JS.truthy]. rewrite andb_false_r. now rewrite append_empty_r.
  - rewrite (join_lines_truthy (b :: bs)); [|rewrite <- Hb; apply nonempty_bodies_truthy
                                             |discriminate].
    rewrite andb_true_r. reflexivity.
Qed.

Lemma toString_of_two_parts_witness :
  toString None registry_ab = "color:red" +:+ JS.LF +:+ "color:blue".
Proof.
  apply (toString_of_two_parts None registry_ab
           (snd (add "a" (style "color:red") no_options fresh_registry))
           (set_index [rule_b] registry_ab)).
  reflexivity.
Defined.

(** *** Linking *)

Lemma link_step_fields (esc : option (gmap string (option string))) (rl : RuleList)
    (c : CSSOMRule) :
  map (link_step esc rl c) = map rl /\ index (link_step esc rl c) = index rl
  /\ raw (link_step esc rl c) = raw rl /\ classes (link_step esc rl c) = classes rl
  /\ options (link_step esc rl c) = options rl.
Proof.
  unfold link_step.
  destruct (map rl !! _); repeat split; reflexivity.
Qed.

Lemma link_loop_fields (esc : option (gmap string (option string)))
    (cs : list CSSOMRule) (rl : RuleList) :
  map (fold_left (link_step esc) cs rl) = map rl
  /\ index (fold_left (link_step esc) cs rl) = index rl
  /\ raw (fold_left (link_step esc) cs rl) = raw rl
  /\ classes (fold_left (link_step esc) cs rl) = classes rl
  /\ options (fold_left (link_step esc) cs rl) = options rl.
Proof.
  revert rl. induction cs as [|c cs IH]; intros rl; [repeat split; reflexivity|].
  cbn [fold_left]. destruct (IH (link_step esc rl c)) as (H1 & H2 & H3 & H4 & H5).
  destruct (link_step_fields esc rl c) as (G1 & G2 & G3 & G4 & G5).
  repeat split; congruence.
Qed.

Lemma link_loop_bindings (esc : option (gmap string (option string)))
    (cs : list CSSOMRule) (rl : RuleList) (id : nat) (c : CSSOMRule) :
  renderable (fold_left (link_step esc) cs rl) !! id = Some c ->
  renderable rl !! id = Some c
  \/ (c ∈ cs /\ exists k rule, map rl !! k = Some rule /\ rid rule = id).
Proof.
  revert rl. induction cs as [|c0 cs IH]; intros rl Hb; [now left|].
  cbn [fold_left] in Hb. apply IH in Hb as [Hb|(Hin & k & rule & Hk & Hid)].
  - unfold link_step in Hb.
    destruct (map rl !! _) as [rule|] eqn:Hk; [|now left].
    cbn in Hb. apply lookup_insert_Some in Hb as [[<- <-]|[_ Hb]]; [|now left].
    right. split; [apply list_elem_of_here|]. eauto.
  - right. split; [now apply list_elem_of_further|].
    destruct (link_step_fields esc rl c0) as (Hmap & _). rewrite Hmap in Hk. eauto.
Qed.

(** X10: [link] changes nothing but the bindings: the map, the sequence, the
    declarations and the class map are as before, and a binding that
    [link] made is a native rule of the given list bound to a rule of the
    map. *)
Theorem link_changes_bindings_only :
  forall (cssRules : list CSSOMRule) (rl rl' : RuleList),
    link cssRules rl = Some rl' ->
    map rl' = map rl /\ index rl' = index rl /\ raw rl' = raw rl
    /\ classes rl' = classes rl
    /\ forall (id : nat) (c : CSSOMRule),
         renderable rl' !! id = Some c ->
         renderable rl !! id = Some c
         \/ (c ∈ cssRules /\ exists k rule, map rl !! k = Some rule /\ rid rule = id).
Proof.
  intros cs rl rl' Hlink. unfold link in Hlink.
  assert (Hloop : exists esc, rl' = fold_left (link_step esc) cs rl).
  { destruct (supportEscaping (options rl)).
    - destruct (getUnescapedSelectorsMap _ _ _) as [m|]; [|discriminate].
      injection Hlink as <-. now eexists.
    - injection Hlink as <-. now eexists. }
  destruct Hloop as [esc ->].
  destruct (link_loop_fields esc cs rl) as (H1 & H2 & H3 & H4 & _).
  repeat split; try assumption.
  intros id c. apply link_loop_bindings.
Qed.

Lemma link_changes_bindings_only_witness :
  exists rl', link [pulse_with_name] keyframes_registry = Some rl'
    /\ map rl' = map keyframes_registry /\ index rl' = index keyframes_registry.
Proof.
  eexists. split; [reflexivity|].
  destruct (link_changes_bindings_only [pulse_with_name] keyframes_registry _ eq_refl)
    as (Hmap & Hidx & _).
  split; [exact Hmap | exact Hidx].
Defined.

Lemma link_step_plain (rl : RuleList) (c : CSSOMRule) :
  link_step None rl c
  = match map rl !! getSelector c with
    | Some rule => linkRule rule c rl
    | None => rl
    end.
Proof. reflexivity. Qed.

Lemma link_loop_keeps (cs : list CSSOMRule) (rl : RuleList) (id : nat) :
  (forall c r, c ∈ cs -> map rl !! getSelector c = Some r -> rid r <> id) ->
  renderable (fold_left (link_step None) cs rl) !! id = renderable rl !! id.
Proof.
  revert rl. induction cs as [|c cs IH]; intros rl Hcs; [reflexivity|].
  cbn [fold_left]. rewrite IH.
  - rewrite link_step_plain. destruct (map rl !! getSelector c) as [r|] eqn:Hr; [|reflexivity].
    cbn. apply lookup_insert_ne. apply (Hcs c r); [apply list_elem_of_here | exact Hr].
  - intros c' r Hc' Hr. destruct (link_step_fields None rl c) as (Hmap & _).
    rewrite Hmap in Hr. apply (Hcs c' r); [now apply list_elem_of_further | exact Hr].
Qed.

Lemma link_loop_unmatched (cs : list CSSOMRule) (rl : RuleList) :
  (forall c, c ∈ cs -> map rl !! getSelector c = None) ->
  fold_left (link_step None) cs rl = rl.
Proof.
  induction cs as [|c cs IH]; intros Hcs; [reflexivity|].
  cbn [fold_left]. rewrite link_step_plain, (Hcs c) by apply list_elem_of_here.
  apply IH. intros c' Hc'. apply Hcs. now apply list_elem_of_further.
Qed.

(** X11: Without escaping support, a native rule whose selector is a property
    name of the map is bound to the rule found there, unless a later
    native rule of the list resolves to the same rule object (the last
    one wins); and when no native rule of the list has its selector in
    the map, [link] changes nothing at all. *)
Theorem link_binds_by_selector :
  forall (rl : RuleList),
    supportEscaping (options rl) = false ->
    (forall (pre post : list CSSOMRule) (c : CSSOMRule) (rule : Rule),
        map rl !! getSelector c = Some rule ->
        (forall c' r', c' ∈ post -> map rl !! getSelector c' = Some r' ->
                       rid r' <> rid rule) ->
        exists rl', link (pre ++ c :: post) rl = Some rl'
                    /\ renderable rl' !! rid rule = Some c)
    /\ (forall cssRules : list CSSOMRule,
          (forall c, c ∈ cssRules -> map rl !! getSelector c = None) ->
          link cssRules rl = Some rl).
Proof.
  intros rl Hesc. split.
  - intros pre post c rule Hc Hpost. unfold link. rewrite Hesc.
    eexists. split; [reflexivity|].
    rewrite fold_left_app. cbn [fold_left].
    set (rl1 := fold_left (link_step None) pre rl).
    assert (Hmap1 : map rl1 = map rl) by apply (link_loop_fields None pre rl).
    rewrite link_loop_keeps.
    + rewrite link_step_plain, Hmap1, Hc. cbn. apply lookup_insert_eq.
    + intros c' r' Hc' Hr'.
      destruct (link_step_fields None rl1 c) as (Hmap2 & _).
      rewrite Hmap2, Hmap1 in Hr'. now apply (Hpost c' r').
  - intros cs Hcs. unfold link. rewrite Hesc. f_equal. now apply link_loop_unmatched.
Qed.

(** A native style rule as the engine presents it. *)
Definition native_style (id : nat) (sel : string) : CSSOMRule :=
  {| cid := id; type := STYLE_RULE; selectorText := sel; name := None;
     cssText := sel +:+ " { color: red; }" |}.

Lemma link_binds_by_selector_witness :
  (exists rl', link [native_style 1 ".b-0"; native_style 2 ".a-0"] registry_ab = Some rl'
               /\ renderable rl' !! rid rule_a = Some (native_style 2 ".a-0"))
  /\ link [native_style 1 ".other"] registry_ab = Some registry_ab.
Proof.
  destruct (link_binds_by_selector registry_ab eq_refl) as [Hbound Hnone]. split.
  - apply (Hbound [native_style 1 ".b-0"] [] (native_style 2 ".a-0") rule_a).
    + reflexivity.
    + intros c' r' Hc'. inversion Hc'.
  - apply Hnone. intros c Hc.
    apply elem_of_cons in Hc as [->|Hc]; [reflexivity | inversion Hc].
Defined.

Lemma escaping_map_loop {R : Type} (selector : R -> option string) (eng : Engine)
    (rules : list R) (acc : option (gmap string (option string))) :
  fold_left
    (fun acc rule =>
       match acc with
       | None => None
       | Some m =>
           match parseSheet eng (JS.to_str (selector rule) +:+ " {}") with
           | c :: _ => Some (JS.set_property (getSelector c) (selector rule) m)
           | [] => None
           end
       end) rules acc = None
  <-> acc = None
      \/ exists rule, rule ∈ rules
                      /\ parseSheet eng (JS.to_str (selector rule) +:+ " {}") = [].
Proof.
  revert acc. induction rules as [|r rules IH]; intros acc.
  - cbn. split; [now left|]. intros [H|(rule & Hin & _)]; [exact H | inversion Hin].
  - cbn [fold_left]. rewrite IH. split.
    + intros [Hacc|(rule & Hin & Hp)].
      * destruct acc as [m|]; [|now left].
        destruct (parseSheet eng (JS.to_str (selector r) +:+ " {}")) eqn:Hp; [|discriminate].
        right. exists r. split; [apply list_elem_of_here | exact Hp].
      * right. exists rule. split; [now apply list_elem_of_further | exact Hp].
    + intros [->|(rule & Hin & Hp)]; [now left|].
      apply elem_of_cons in Hin as [->|Hin].
      * left. rewrite Hp. now destruct acc.
      * right. eauto.
Qed.

(** X12: [link] throws exactly when escaping support is on and, for some rule
    of the ordered sequence, the engine produces no rule from the probe
    text made of that rule's selector; what the native rule list holds
    plays no part in it. *)
Theorem link_throws_on_failed_probe :
  forall (cssRules : list CSSOMRule) (rl : RuleList),
    link cssRules rl = None
    <-> supportEscaping (options rl) = true
        /\ exists rule, rule ∈ index rl
             /\ parseSheet (engine (options rl)) (JS.to_str (selector rule) +:+ " {}") = [].
Proof.
  intros cs rl. unfold link.
  destruct (supportEscaping (options rl)).
  - unfold getUnescapedSelectorsMap.
    pose proof (escaping_map_loop selector (engine (options rl)) (index rl) (Some ∅)) as H.
    destruct (fold_left _ (index rl) (Some ∅)) as [m|].
    + split; [discriminate|]. intros [_ Hex].
      destruct H as [_ H]. discriminate H. now right.
    + split; [|reflexivity]. intros _. split; [reflexivity|].
      destruct H as [H _]. destruct (H eq_refl) as [Hnone|Hex]; [discriminate | exact Hex].
  - split; [discriminate|]. intros [Hf _]. discriminate.
Qed.

(** An engine that produces no rule from any text, with escaping on. *)
Definition escaping_options : RuleListOptions :=
  {| generateClassName := fun rule => key rule +:+ "-0";
     supportEscaping := true;
     engine := {| parseSheet := fun _ => []; parseRule := fun _ => None |} |}.

Example link_throws_without_native_rules :
  link [] (snd (add "a" (style "color:red") no_options (constructor escaping_options ∅)))
  = None.
Proof. reflexivity. Qed.

(** The step of the loop of [getUnescapedSelectorsMap]. *)
Definition probe_step {R : Type} (selector : R -> option string) (eng : Engine)
    (acc : option (gmap string (option string))) (rule : R)
    : option (gmap string (option string)) :=
  match acc with
  | None => None
  | Some m =>
      match parseSheet eng (JS.to_str (selector rule) +:+ " {}") with
      | c :: _ => Some (JS.set_property (getSelector c) (selector rule) m)
      | [] => None
      end
  end.

Lemma getUnescapedSelectorsMap_as_loop {R : Type} (selector : R -> option string)
    (eng : Engine) (rules : list R) :
  getUnescapedSelectorsMap selector eng rules
  = fold_left (probe_step selector eng) rules (Some ∅).
Proof. reflexivity. Qed.

Lemma probe_loop_none {R : Type} (selector : R -> option string) (eng : Engine)
    (rules : list R) :
  fold_left (probe_step selector eng) rules None = None.
Proof. induction rules as [|r rules IH]; [reflexivity | exact IH]. Qed.

Lemma set_property_other {V : Type} (k k' : string) (v : V) (m : gmap string V) :
  k' <> k -> JS.set_property k' v m !! k = m !! k.
Proof.
  intros Hne. unfold JS.set_property.
  destruct (m !! k'); [now apply lookup_insert_ne|].
  destruct (String.eqb k' "__proto__"); [reflexivity | now apply lookup_insert_ne].
Qed.

Lemma set_property_same {V : Type} (k : string) (v : V) (m : gmap string V) :
  k <> "__proto__" -> JS.set_property k v m !! k = Some v.
Proof.
  intros Hne. unfold JS.set_property.
  destruct (m !! k); [apply lookup_insert_eq|].
  destruct (String.eqb_spec k "__proto__"); [contradiction | apply lookup_insert_eq].
Qed.

Lemma probe_loop_keeps {R : Type} (selector : R -> option string) (eng : Engine)
    (rules : list R) (m0 m : gmap string (option string)) (k : string) :
  fold_left (probe_step selector eng) rules (Some m0) = Some m ->
  (forall r c, r ∈ rules ->
     head (parseSheet eng (JS.to_str (selector r) +:+ " {}")) = Some c ->
     getSelector c <> k) ->
  m !! k = m0 !! k.
Proof.
  revert m0. induction rules as [|r rules IH]; intros m0 Hfold Hrules.
  - cbn in Hfold. now injection Hfold as <-.
  - cbn [fold_left] in Hfold. unfold probe_step at 2 in Hfold.
    destruct (parseSheet eng (JS.to_str (selector r) +:+ " {}")) as [|c cs] eqn:Hp.
    + rewrite probe_loop_none in Hfold. discriminate.
    + rewrite (IH _ Hfold).
      * apply set_property_other. apply (Hrules r c); [apply list_elem_of_here|].
        now rewrite Hp.
      * intros r' c' Hr'. apply Hrules. now apply list_elem_of_further.
Qed.

Lemma probe_loop_last {R : Type} (selector : R -> option string) (eng : Engine)
    (pre post : list R) (r : R) (c : CSSOMRule) (m0 m : gmap string (option string)) :
  fold_left (probe_step selector eng) (pre ++ r :: post) (Some m0) = Some m ->
  head (parseSheet eng (JS.to_str (selector r) +:+ " {}")) = Some c ->
  (forall r' c', r' ∈ post ->
     head (parseSheet eng (JS.to_str (selector r') +:+ " {}")) = Some c' ->
     getSelector c' <> getSelector c) ->
  getSelector c <> "__proto__" ->
  m !! getSelector c = Some (selector r).
Proof.
  intros Hfold Hc Hpost Hproto. rewrite fold_left_app in Hfold. cbn [fold_left] in Hfold.
  destruct (fold_left (probe_step selector eng) pre (Some m0)) as [m1|].
  - unfold probe_step at 2 in Hfold.
    destruct (parseSheet eng (JS.to_str (selector r) +:+ " {}")) as [|c0 cs] eqn:Hp;
      [discriminate|].
    cbn in Hc. injection Hc as ->.
    rewrite (probe_loop_keeps _ _ _ _ _ _ Hfold Hpost). now apply set_property_same.
  - cbn in Hfold. rewrite probe_loop_none in Hfold. discriminate.
Qed.

Lemma link_step_escaped (m : gmap string (option string)) (rl : RuleList)
    (c : CSSOMRule) :
  link_step (Some m) rl c
  = match map rl !! JS.to_str (JS.get_member m (getSelector c)) with
    | Some rule => linkRule rule c rl
    | None => rl
    end.
Proof. reflexivity. Qed.

Lemma link_loop_keeps_escaped (m : gmap string (option string)) (cs : list CSSOMRule)
    (rl : RuleList) (id : nat) :
  (forall c r, c ∈ cs ->
     map rl !! JS.to_str (JS.get_member m (getSelector c)) = Some r -> rid r <> id) ->
  renderable (fold_left (link_step (Some m)) cs rl) !! id = renderable rl !! id.
Proof.
  revert rl. induction cs as [|c cs IH]; intros rl Hcs; [reflexivity|].
  cbn [fold_left]. rewrite IH.
  - rewrite link_step_escaped.
    destruct (map rl !! JS.to_str (JS.get_member m (getSelector c))) as [r|] eqn:Hr;
      [|reflexivity].
    cbn. apply lookup_insert_ne. apply (Hcs c r); [apply list_elem_of_here | exact Hr].
  - intros c' r Hc' Hr. destruct (link_step_fields (Some m) rl c) as (Hmap & _).
    rewrite Hmap in Hr. apply (Hcs c' r); [now apply list_elem_of_further | exact Hr].
Qed.

(** X13: With escaping support, a native rule of the list whose selector is
    what the engine makes of the selector of a rule of the sequence is
    bound to the rule the map has under that original selector, provided
    no probe fails, no later rule of the sequence is read back by the
    engine in the same form, that form is not [__proto__] (a name the
    escaping map cannot hold), and no later native rule of the list
    resolves, through the escaping map, to the same rule object (the last
    one wins). *)
Theorem link_through_escaping_map :
  forall (rl : RuleList) (pre post : list Rule) (r rule : Rule) (probe c : CSSOMRule)
         (cpre cpost : list CSSOMRule),
    supportEscaping (options rl) = true ->
    (forall r', r' ∈ index rl ->
       parseSheet (engine (options rl)) (JS.to_str (selector r') +:+ " {}") <> []) ->
    index rl = (pre ++ r :: post)%list ->
    head (parseSheet (engine (options rl)) (JS.to_str (selector r) +:+ " {}")) = Some probe ->
    (forall r' probe', r' ∈ post ->
       head (parseSheet (engine (options rl)) (JS.to_str (selector r') +:+ " {}"))
       = Some probe' ->
       getSelector probe' <> getSelector probe) ->
    getSelector probe <> "__proto__" ->
    getSelector c = getSelector probe ->
    map rl !! JS.to_str (selector r) = Some rule ->
    (forall m c' r',
       getUnescapedSelectorsMap selector (engine (options rl)) (index rl) = Some m ->
       c' ∈ cpost ->
       map rl !! JS.to_str (JS.get_member m (getSelector c')) = Some r' ->
       rid r' <> rid rule) ->
    exists rl', link (cpre ++ c :: cpost) rl = Some rl'
                /\ renderable rl' !! rid rule = Some c.
Proof.
  intros rl pre post r rule probe c cpre cpost
         Hesc Hok Hidx Hprobe Hpost Hproto Hc Hmap Hlater.
  unfold link. rewrite Hesc.
  destruct (getUnescapedSelectorsMap selector (engine (options rl)) (index rl))
    as [m|] eqn:Hfold.
  - eexists. split; [reflexivity|].
    pose proof Hfold as Hloop. rewrite getUnescapedSelectorsMap_as_loop, Hidx in Hloop.
    pose proof (probe_loop_last _ _ _ _ _ _ _ _ Hloop Hprobe Hpost Hproto) as Hm.
    rewrite fold_left_app. cbn [fold_left].
    set (rl1 := fold_left (link_step (Some m)) cpre rl).
    assert (Hmap1 : map rl1 = map rl) by apply (link_loop_fields (Some m) cpre rl).
    rewrite link_loop_keeps_escaped.
    + rewrite link_step_escaped, Hmap1. unfold JS.get_member.
      rewrite Hc, Hm, Hmap. cbn. apply lookup_insert_eq.
    + intros c' r' Hc' Hr'.
      destruct (link_step_fields (Some m) rl1 c) as (Hmap2 & _).
      rewrite Hmap2, Hmap1 in Hr'. now apply (Hlater m c' r' eq_refl).
  - exfalso.
    pose proof (proj1 (escaping_map_loop selector (engine (options rl)) (index rl) (Some ∅))
                  Hfold) as [Hnone|(r' & Hr' & Hp)]; [discriminate|].
    now apply (Hok r' Hr').
Qed.

(** An engine that turns the probe text [".A-0 {}"] into a style rule with
    the selector [".a-0"] and reads every other selector back as it was
    written. *)
Definition lowering_engine : Engine :=
  {| parseSheet := fun text =>
       if String.eqb text ".A-0 {}"
       then [native_style 0 ".a-0"]
       else [native_style 0 (JS.substr text 0 (Z.of_nat (String.length text) - 3))];
     parseRule := fun _ => None |}.

Definition lowering_options : RuleListOptions :=
  {| generateClassName := fun rule => key rule +:+ "-0";
     supportEscaping := true;
     engine := lowering_engine |}.

Definition registry_upper : RuleList :=
  snd (add "A" (style "color:red") no_options (constructor lowering_options ∅)).

Definition rule_upper : Rule :=
  fst (add "A" (style "color:red") no_options (constructor lowering_options ∅)).

Lemma link_through_escaping_map_witness :
  exists rl',
    link [native_style 4 ".other"; native_style 5 ".a-0"; native_style 6 "constructor"]
         registry_upper = Some rl'
    /\ renderable rl' !! rid rule_upper = Some (native_style 5 ".a-0").
Proof.
  apply (link_through_escaping_map registry_upper [] [] rule_upper rule_upper
           (native_style 0 ".a-0") (native_style 5 ".a-0")
           [native_style 4 ".other"] [native_style 6 "constructor"]); try reflexivity.
  - intros r' Hr'. apply elem_of_cons in Hr' as [->|Hr']; [discriminate | inversion Hr'].
  - intros r' probe' Hr'. inversion Hr'.
  - discriminate.
  - intros m c' r' Hm Hc' Hr'.
    apply elem_of_cons in Hc' as [->|Hc']; [|inversion Hc'].
    vm_compute in Hm. injection Hm as <-. vm_compute in Hr'. discriminate.
Defined.

(** Two native rules with the same selector: the later one is bound. *)
Example link_escaped_last_native_rule_wins :
  (fun rl' => cid <$> renderable rl' !! rid rule_upper)
    <$> link [native_style 5 ".a-0"; native_style 6 ".a-0"] registry_upper
  = Some (Some 6%nat).
Proof. reflexivity. Qed.

(** A native rule whose selector is a name inherited from
    [Object.prototype] and not a property of the escaping map: the read
    gives the inherited function, and the rule registered under the text
    of that function is bound. *)
Example link_escaped_inherited_name :
  let (rule, rl) :=
    add (JS.native_function "Object") (style "color:red") no_options
        (constructor lowering_options ∅) in
  (fun rl' => cid <$> renderable rl' !! rid rule)
    <$> link [native_style 7 "constructor"] rl
  = Some (Some 7%nat).
Proof. reflexivity. Qed.

End RuleListMore.

(* ===================================================================== *)
(** ** Further properties of selector extraction *)
(* ===================================================================== *)

Module NativeRuleMore.
Import NativeRule.

Lemma index_from_shift (pat s : string) (k : Z) :
  (JS.index_from k pat s = -1 /\ JS.index_from 0 pat s = -1)
  \/ exists j, 0 <= j /\ JS.index_from k pat s = k + j /\ JS.index_from 0 pat s = j.
Proof.
  revert k. induction s as [|a s IH]; intros k; cbn [JS.index_from].
  - destruct (JS.starts_with pat ""); [right; exists 0; lia | now left].
  - destruct (JS.starts_with pat (String a s)); [right; exists 0; lia|].
    destruct (IH (k + 1)) as [[H1 H0]|(j & Hj & H1 & H0)].
    + left. split; [exact H1|].
      destruct (IH (0 + 1)) as [[G1 _]|(j' & Hj' & G1 & G0)]; [exact G1 | lia].
    + right. exists (j + 1).
      destruct (IH (0 + 1)) as [[_ G0]|(j' & Hj' & G1 & G0)]; [lia|].
      repeat split; lia.
Qed.

Lemma indexOf_brace_cons (a : ascii) (s : string) :
  JS.indexOf (String a s) "{" = -1 -> a <> "{"%char /\ JS.indexOf s "{" = -1.
Proof.
  unfold JS.indexOf. cbn [JS.index_from JS.starts_with].
  destruct (Ascii.eqb "{" a) eqn:Ha; cbn [andb]; [discriminate|].
  intros H. split.
  - intros ->. rewrite Ascii.eqb_refl in Ha. discriminate.
  - destruct (index_from_shift "{" s (0 + 1)) as [[_ H0]|(j & Hj & H1 & _)];
      [exact H0 | lia].
Qed.

Lemma indexOf_brace_after (sel rest : string) (c : ascii) :
  JS.indexOf sel "{" = -1 -> c <> "{"%char ->
  JS.indexOf (sel +:+ String c ("{" +:+ rest)) "{" = Z.of_nat (String.length sel) + 1.
Proof.
  intros Hsel Hc. induction sel as [|a sel IH].
  - unfold JS.indexOf.
    change ("" +:+ String c ("{" +:+ rest)) with (String c (String "{" rest)).
    cbn [JS.index_from JS.starts_with].
    destruct (Ascii.eqb "{" c) eqn:Hbc.
    + apply Ascii.eqb_eq in Hbc. congruence.
    + cbn [andb]. rewrite Ascii.eqb_refl. reflexivity.
  - apply indexOf_brace_cons in Hsel as [Ha Hsel]. specialize (IH Hsel).
    unfold JS.indexOf in *.
    change (String a sel +:+ String c ("{" +:+ rest))
      with (String a (sel +:+ String c ("{" +:+ rest))).
    cbn [JS.index_from JS.starts_with].
    destruct (Ascii.eqb "{" a) eqn:Hba.
    + apply Ascii.eqb_eq in Hba. congruence.
    + cbn [andb].
      destruct (index_from_shift "{" (sel +:+ String c ("{" +:+ rest)) (0 + 1))
        as [[_ H0]|(j & Hj & H1 & H0)]; [lia|].
      rewrite H1. cbn [String.length]. lia.
Qed.

Lemma length_append (a b : string) :
  String.length (a +:+ b) = (String.length a + String.length b)%nat.
Proof.
  induction a as [|x a IH]; [reflexivity|].
  change (String x a +:+ b) with (String x (a +:+ b)). cbn [String.length].
  now rewrite IH.
Qed.

Lemma str_take_append (a b : string) : JS.str_take (String.length a) (a +:+ b) = a.
Proof.
  induction a as [|x a IH]; [reflexivity|].
  change (String x a +:+ b) with (String x (a +:+ b)). cbn [String.length JS.str_take].
  now rewrite IH.
Qed.

Lemma substr_from_start (s : string) (n : Z) :
  0 <= n <= Z.of_nat (String.length s) ->
  JS.substr s 0 n = JS.str_take (Z.to_nat n) s.
Proof.
  intros Hn. unfold JS.substr.
  replace (0 <? 0) with false by reflexivity.
  replace (Z.min 0 (Z.of_nat (String.length s))) with 0 by lia.
  replace (Z.min (Z.max n 0) (Z.of_nat (String.length s) - 0)) with n by lia.
  reflexivity.
Qed.

Lemma substr_nothing (s : string) (n : Z) : n <= 0 -> JS.substr s 0 n = "".
Proof.
  intros Hn. unfold JS.substr.
  replace (0 <? 0) with false by reflexivity.
  replace (Z.min 0 (Z.of_nat (String.length s))) with 0 by lia.
  replace (Z.min (Z.max n 0) (Z.of_nat (String.length s) - 0)) with 0 by lia.
  reflexivity.
Qed.

(** X14: For a native rule that is neither a style rule nor a keyframes rule,
    [getSelector] gives the raw text before the opening brace without the
    one character that precedes the brace; it gives the empty string when
    the raw text has no brace or has it among its first two characters. *)
Theorem getSelector_from_raw_text :
  forall cssRule : CSSOMRule,
    type cssRule <> STYLE_RULE -> type cssRule <> KEYFRAMES_RULE ->
    (forall (sel rest : string) (c : ascii),
        cssText cssRule = sel +:+ String c ("{" +:+ rest) ->
        JS.indexOf sel "{" = -1 -> c <> "{"%char ->
        getSelector cssRule = sel)
    /\ (JS.indexOf (cssText cssRule) "{" <= 1 -> getSelector cssRule = "").
Proof.
  intros cssRule Hs Hk.
  assert (Hget : getSelector cssRule = extractSelector (cssText cssRule) 0).
  { unfold getSelector.
    destruct (type cssRule =? STYLE_RULE) eqn:H1; [apply Z.eqb_eq in H1; contradiction|].
    destruct (type cssRule =? KEYFRAMES_RULE) eqn:H7; [apply Z.eqb_eq in H7; contradiction|].
    reflexivity. }
  rewrite Hget. unfold extractSelector. split.
  - intros sel rest c Htext Hsel Hc. rewrite Htext.
    rewrite (indexOf_brace_after sel rest c Hsel Hc).
    rewrite substr_from_start by (rewrite length_append; lia).
    replace (Z.to_nat (Z.of_nat (String.length sel) + 1 - 1)) with (String.length sel) by lia.
    apply str_take_append.
  - intros Hidx. apply substr_nothing. lia.
Qed.

(** A conditional rule as an engine presents it. *)
Definition media_rule : CSSOMRule :=
  {| cid := 3; type := 4; selectorText := ""; name := None;
     cssText := "@media print { .a { color: red; } }" |}.

Lemma getSelector_from_raw_text_witness :
  getSelector media_rule = "@media print"
  /\ getSelector {| cid := 4; type := 4; selectorText := ""; name := None;
                    cssText := "@media print" |} = "".
Proof.
  split.
  - destruct (getSelector_from_raw_text media_rule) as [H _]; [discriminate..|].
    apply (H "@media print" " .a { color: red; } }" " "%char);
      [reflexivity | reflexivity | discriminate].
  - destruct (getSelector_from_raw_text
                {| cid := 4; type := 4; selectorText := ""; name := None;
                   cssText := "@media print" |}) as [_ H]; [discriminate..|].
    apply H. change (-1 <= 1). lia.
Defined.

End NativeRuleMore.

(* ===================================================================== *)
(** ** Further properties of the DOM renderer *)
(* ===================================================================== *)

Module DomRendererMore.
Import NativeRule DomRenderer DomRendererFacts.

(** *** The document under [insertBefore] *)

Lemma without_idempotent (n : Node) (l : list Node) :
  without n (without n l) = without n l.
Proof. apply without_absent, without_removes. Qed.

Lemma without_insert_before (new : Node) (ref : option Node) (l : list Node) :
  without new (insert_before new ref l) = without new l.
Proof.
  assert (Hself : negb (same_node new new) = false)
    by (unfold same_node; now rewrite Nat.eqb_refl).
  induction l as [|c l IH]; cbn.
  - unfold without. cbn. now rewrite Hself.
  - destruct (match ref with Some r => same_node r c | None => false end).
    + unfold without. cbn. now rewrite Hself.
    + unfold without in *. cbn. now rewrite IH.
Qed.

Lemma insert_before_holds (new : Node) (ref : option Node) (l : list Node) :
  existsb (same_node new) (insert_before new ref l) = true.
Proof.
  assert (Hself : same_node new new = true)
    by (unfold same_node; now rewrite Nat.eqb_refl).
  induction l as [|c l IH]; cbn.
  - now rewrite Hself.
  - destruct (match ref with Some r => same_node r c | None => false end); cbn.
    + now rewrite Hself.
    + rewrite IH. apply orb_true_r.
Qed.

Lemma childNodes_insert_other (d : Dom) (p q : nat) (l : list Node) :
  p <> q -> childNodes (<[p := l]> d) q = childNodes d q.
Proof. intros Hne. unfold childNodes. now rewrite lookup_insert_ne. Qed.

(** The child lists after [insertBefore]. *)
Lemma childNodes_insertBefore (d : Dom) (p q : nat) (new : Node) (ref : option Node) :
  childNodes (insertBefore p new ref d) q
  = if decide (p = q)
    then insert_before new
           (match ref with
            | Some r => if same_node r new then nextSibling d new else ref
            | None => None
            end) (without new (childNodes d q))
    else without new (childNodes d q).
Proof.
  unfold insertBefore. destruct (decide (p = q)) as [->|Hne].
  - now rewrite childNodes_insert, childNodes_without.
  - now rewrite childNodes_insert_other, childNodes_without.
Qed.

(** What [insertStyle] does to the document: nothing, or one
    [insertBefore] of the style element. *)
Lemma insertStyle_dom (style : Node) (o : PriorityOptions) (w : World) :
  registry (insertStyle style o w) = registry w
  /\ (dom (insertStyle style o w) = dom w
      \/ exists p ref, dom (insertStyle style o w) = insertBefore p style ref (dom w)).
Proof.
  unfold insertStyle.
  assert (Hprev : dom (snd (findPrevNode o w)) = dom w
                  /\ registry (snd (findPrevNode o w)) = registry w).
  { unfold findPrevNode, findPlaceholder, warning, emit.
    repeat match goal with
           | |- context [match ?x with _ => _ end] => destruct x
           end; cbn; split; reflexivity. }
  destruct (findPrevNode o w) as [prev w1]. cbn [snd] in Hprev.
  destruct Hprev as [Hdom Hreg].
  unfold do_insertBefore, warning, emit.
  destruct prev as [prev|].
  - destruct (parentNode (dom w1) prev); cbn [dom registry]; rewrite ?Hdom, ?Hreg;
      split; eauto.
  - destruct (insertionPoint o) as [[marker|node]|]; cbn [dom registry];
      rewrite ?Hdom, ?Hreg.
    + split; eauto.
    + destruct (parentNode (dom w) node); cbn [dom registry]; rewrite ?Hdom, ?Hreg;
        split; eauto.
    + split; eauto.
Qed.

(** X15: [insertStyle] never changes the global registry, and in every child
    list of the document the nodes other than the style element are the
    same, in the same order, before and after. *)
Theorem insertStyle_keeps_other_nodes :
  forall (style : Node) (o : PriorityOptions) (w : World) (p : nat),
    registry (insertStyle style o w) = registry w
    /\ without style (childNodes (dom (insertStyle style o w)) p)
       = without style (childNodes (dom w) p).
Proof.
  intros style o w p.
  destruct (insertStyle_dom style o w) as [Hreg [Hdom|(q & ref & Hdom)]];
    (split; [exact Hreg|]); rewrite Hdom; [reflexivity|].
  rewrite childNodes_insertBefore. destruct (decide (q = p)).
  - rewrite without_insert_before. apply without_idempotent.
  - apply without_idempotent.
Qed.

(** *** Placement after a node *)

(** The children of [p] are distinct nodes, each with the parent [p]. *)
Definition proper_children (d : Dom) (p : nat) : Prop :=
  NoDup (nid <$> childNodes d p)
  /\ forall n, n ∈ childNodes d p -> parentNode d n = Some p.

Lemma existsb_same_node_false (a : Node) (l : list Node) :
  (forall y, y ∈ l -> nid y <> nid a) -> existsb (same_node a) l = false.
Proof.
  induction l as [|c l IH]; intros Hl; [reflexivity|]. cbn.
  rewrite IH by (intros y Hy; apply Hl; now apply list_elem_of_further).
  assert (Hc : same_node a c = false).
  { apply Nat.eqb_neq. intros Heq. apply (Hl c); [apply list_elem_of_here | congruence]. }
  now rewrite Hc.
Qed.

Lemma after_first (x x' : Node) (l1 l2 : list Node) :
  existsb (same_node x) l1 = false -> same_node x x' = true ->
  after x (l1 ++ x' :: l2) = l2.
Proof.
  intros Hl1 Hx. induction l1 as [|c l1 IH]; cbn.
  - now rewrite Hx.
  - cbn in Hl1. apply orb_false_iff in Hl1 as [Hc Hl1]. rewrite Hc. now apply IH.
Qed.

(** Inserting before the next sibling of a child [x'] of [p] puts the new
    node right after [x']. *)
Lemma insert_after (d : Dom) (p : nat) (x x' style : Node) (l1 l2 : list Node) :
  proper_children d p ->
  childNodes d p = (l1 ++ x' :: l2)%list ->
  same_node x x' = true ->
  parentNode d style = None ->
  nextSibling d x = head l2
  /\ childNodes (insertBefore p style (nextSibling d x) d) p
     = (l1 ++ x' :: style :: l2)%list.
Proof.
  intros [Hnd Hparent] Hl Hx Hstyle.
  assert (Hx' : x' ∈ childNodes d p).
  { rewrite Hl. apply elem_of_app. right. apply list_elem_of_here. }
  assert (Hpx : parentNode d x = Some p).
  { rewrite (parentNode_same d x x' Hx). now apply Hparent. }
  rewrite Hl, fmap_app, fmap_cons in Hnd.
  apply NoDup_app in Hnd as (_ & Hdisj & Hnd2).
  apply NoDup_cons in Hnd2 as [Hx2 Hnd2].
  apply same_node_true in Hx.
  assert (Hl1 : existsb (same_node x) l1 = false).
  { apply existsb_same_node_false. intros y Hy Heq.
    apply (Hdisj (nid y)); [now apply list_elem_of_fmap_2|].
    rewrite Heq, Hx. apply list_elem_of_here. }
  assert (Hnext : nextSibling d x = head l2).
  { unfold nextSibling. rewrite Hpx, Hl.
    rewrite (after_first x x' l1 l2 Hl1); [reflexivity | now apply same_node_true]. }
  split; [exact Hnext|].
  rewrite childNodes_insertBefore, decide_True by reflexivity.
  rewrite without_absent by (now apply parentNode_None).
  rewrite Hnext, Hl. destruct l2 as [|n l2]; cbn [head].
  - rewrite insert_before_null. now rewrite <- app_assoc.
  - assert (Hn : n ∈ childNodes d p).
    { rewrite Hl. apply elem_of_app. right. apply list_elem_of_further, list_elem_of_here. }
    destruct (same_node n style) eqn:Hns.
    { specialize (Hparent n Hn).
      rewrite (parentNode_same d n style Hns), Hstyle in Hparent. discriminate. }
    change (l1 ++ x' :: n :: l2)%list with (l1 ++ [x'] ++ n :: l2)%list.
    rewrite app_assoc.
    rewrite (insert_before_first style n n (l1 ++ [x']) l2).
    + now rewrite <- app_assoc.
    + unfold same_node. apply Nat.eqb_refl.
    + rewrite fmap_cons in Hx2, Hnd2. apply NoDup_cons in Hnd2 as [Hn2 _].
      apply existsb_same_node_false. intros y Hy Heq.
      apply elem_of_app in Hy as [Hy|Hy].
      * apply (Hdisj (nid y)); [now apply list_elem_of_fmap_2|].
        rewrite Heq. apply list_elem_of_further, list_elem_of_here.
      * apply elem_of_cons in Hy as [->|Hy]; [|inversion Hy].
        apply Hx2. rewrite Heq. apply list_elem_of_here.
Qed.

Lemma no_sharing_sheet (o : PriorityOptions) (w : World) :
  (forall sheet, sheet ∈ registry w -> shares_insertionPoint o sheet = false) ->
  findPrevNode o w = findPlaceholder o w.
Proof.
  intros Hnone. unfold findPrevNode.
  assert (Hhigher : findHigherSheet (registry w) o = None).
  { apply find_nowhere. intros y Hy. apply is_higher_shares. now apply Hnone. }
  assert (Hhighest : findHighestSheet (registry w) o = None).
  { apply find_nowhere. intros y Hy. apply Hnone.
    apply list_elem_of_In, in_rev. now apply list_elem_of_In. }
  rewrite Hhigher, Hhighest. now destruct (0 <? Z.of_nat (length (registry w))).
Qed.

(** X16: With a node as insertion point and no attached sheet sharing it: a
    node that has no parent gets one warning and nothing is inserted; a
    node that has a parent gets the container as its next sibling,
    without a warning. *)
Theorem insertStyle_at_node :
  forall (style node : Node) (o : PriorityOptions) (w : World),
    insertionPoint o = Some (IPNode node) ->
    (forall sheet, sheet ∈ registry w -> shares_insertionPoint o sheet = false) ->
    (parentNode (dom w) node = None ->
     dom (insertStyle style o w) = dom w
     /\ log (insertStyle style o w)
        = (log w ++ [Warning "[JSS] Insertion point is not in the DOM."])%list)
    /\ (forall (p : nat) (l1 l2 : list Node) (node' : Node),
          parentNode (dom w) node = Some p ->
          proper_children (dom w) p ->
          childNodes (dom w) p = (l1 ++ node' :: l2)%list ->
          same_node node node' = true ->
          parentNode (dom w) style = None ->
          childNodes (dom (insertStyle style o w)) p = (l1 ++ node' :: style :: l2)%list
          /\ log (insertStyle style o w)
             = (log w ++ [InsertBefore p style (head l2)])%list).
Proof.
  intros style node o w Hip Hnone.
  unfold insertStyle. rewrite (no_sharing_sheet o w Hnone).
  unfold findPlaceholder. rewrite Hip. split.
  - intros Hp. rewrite Hp. split; reflexivity.
  - intros p l1 l2 node' Hp Hproper Hl Hsame Hstyle. rewrite Hp.
    destruct (insert_after (dom w) p node node' style l1 l2 Hproper Hl Hsame Hstyle)
      as [Hnext Hchildren].
    cbn [do_insertBefore emit dom log]. rewrite Hnext in *. split; [exact Hchildren | reflexivity].
Qed.

Ltac prove_proper_children :=
  split;
  [ apply (bool_decide_unpack _); vm_compute; exact I
  | let n := fresh "n" in
    let Hn := fresh "Hn" in
    intros n Hn; vm_compute in Hn;
    repeat (apply elem_of_cons in Hn as [->|Hn]; [reflexivity|]);
    inversion Hn ].

(** A document whose head holds a marker comment between two elements, and
    a body (parent 1) that holds one element. *)
Definition marked_world : World :=
  {| dom := {[ headId := [element_node 10; comment_node 7 " jss "; element_node 11];
               1%nat := [element_node 20] ]};
     registry := []; log := [] |}.

Definition after_node (n : Node) : PriorityOptions :=
  {| index := 0; insertionPoint := Some (IPNode n) |}.

Lemma insertStyle_at_node_witness :
  (dom (insertStyle (element_node 2) (after_node (element_node 99)) marked_world)
   = dom marked_world
   /\ log (insertStyle (element_node 2) (after_node (element_node 99)) marked_world)
      = (log marked_world ++ [Warning "[JSS] Insertion point is not in the DOM."])%list)
  /\ (childNodes (dom (insertStyle (element_node 2) (after_node (element_node 20))
                         marked_world)) 1%nat
      = ([] ++ element_node 20 :: element_node 2 :: [])%list
      /\ log (insertStyle (element_node 2) (after_node (element_node 20)) marked_world)
         = (log marked_world ++ [InsertBefore 1%nat (element_node 2) (head [])])%list).
Proof.
  split.
  - destruct (insertStyle_at_node (element_node 2) (element_node 99)
                (after_node (element_node 99)) marked_world eq_refl) as [H _].
    + intros sheet Hs. inversion Hs.
    + exact (H eq_refl).
  - destruct (insertStyle_at_node (element_node 2) (element_node 20)
                (after_node (element_node 20)) marked_world eq_refl) as [_ H].
    + intros sheet Hs. inversion Hs.
    + apply (H 1%nat [] [] (element_node 20)); try reflexivity.
      prove_proper_children.
Defined.

(** X17: With a marker as insertion point and no attached sheet sharing it,
    when a comment of the head carries the marker the container becomes
    the next sibling of that comment, and no warning is emitted. *)
Theorem insertStyle_at_marker :
  forall (style comment : Node) (o : PriorityOptions) (w : World) (marker : string),
    insertionPoint o = Some (IPString marker) ->
    JS.truthy marker = true ->
    (forall sheet, sheet ∈ registry w -> shares_insertionPoint o sheet = false) ->
    findCommentNode (dom w) marker = Some comment ->
    proper_children (dom w) headId ->
    parentNode (dom w) style = None ->
    nodeType comment = 8 /\ JS.trim (nodeValue comment) = marker
    /\ exists l1 l2,
         childNodes (dom w) headId = (l1 ++ comment :: l2)%list
         /\ childNodes (dom (insertStyle style o w)) headId
            = (l1 ++ comment :: style :: l2)%list
         /\ log (insertStyle style o w)
            = (log w ++ [InsertBefore headId style (head l2)])%list.
Proof.
  intros style comment o w marker Hip Htruthy Hnone Hfind Hproper Hstyle.
  pose proof Hfind as Hfound. unfold findCommentNode in Hfound.
  apply find_some in Hfound as [Hin Htest].
  apply andb_true_iff in Htest as [Htype Htext].
  split; [now apply Z.eqb_eq in Htype|]. split; [now apply String.eqb_eq in Htext|].
  apply list_elem_of_In, list_elem_of_split in Hin as (l1 & l2 & Hl).
  exists l1, l2. split; [exact Hl|].
  assert (Hself : same_node comment comment = true) by (unfold same_node; apply Nat.eqb_refl).
  destruct (insert_after (dom w) headId comment comment style l1 l2 Hproper Hl Hself Hstyle)
    as [Hnext Hchildren].
  unfold insertStyle. rewrite (no_sharing_sheet o w Hnone).
  unfold findPlaceholder. rewrite Hip, Htruthy, Hfind.
  rewrite Hnext in *. destruct l2 as [|n l2]; cbn [head] in *.
  - cbn [do_insertBefore emit dom log]. split; [exact Hchildren | reflexivity].
  - assert (Hn : parentNode (dom w) n = Some headId).
    { apply Hproper. rewrite Hl. apply elem_of_app. right.
      apply list_elem_of_further, list_elem_of_here. }
    rewrite Hn. cbn [do_insertBefore emit dom log].
    split; [exact Hchildren | reflexivity].
Qed.

Definition at_marker (marker : string) : PriorityOptions :=
  {| index := 0; insertionPoint := Some (IPString marker) |}.

Lemma insertStyle_at_marker_witness :
  nodeType (comment_node 7 " jss ") = 8
  /\ JS.trim (nodeValue (comment_node 7 " jss ")) = "jss"
  /\ exists l1 l2,
       childNodes (dom marked_world) headId = (l1 ++ comment_node 7 " jss " :: l2)%list
       /\ childNodes (dom (insertStyle (element_node 2) (at_marker "jss") marked_world)) headId
          = (l1 ++ comment_node 7 " jss " :: element_node 2 :: l2)%list
       /\ log (insertStyle (element_node 2) (at_marker "jss") marked_world)
          = (log marked_world ++ [InsertBefore headId (element_node 2) (head l2)])%list.
Proof.
  apply (insertStyle_at_marker (element_node 2) (comment_node 7 " jss ")
           (at_marker "jss") marked_world "jss"); try reflexivity.
  - intros sheet Hs. inversion Hs.
  - prove_proper_children.
Defined.

(** The outcome on that document. *)
Example insertStyle_at_marker_outcome :
  childNodes (dom (insertStyle (element_node 2) (at_marker "jss") marked_world)) headId
  = [element_node 10; comment_node 7 " jss "; element_node 2; element_node 11].
Proof. reflexivity. Qed.

(** X18: Without an insertion point (or with the empty string as marker) and
    without an attached sheet in the same situation, the container goes to
    the end of the head, and no warning is emitted. *)
Theorem insertStyle_by_default :
  forall (style : Node) (o : PriorityOptions) (w : World),
    insertionPoint o = None \/ insertionPoint o = Some (IPString "") ->
    (forall sheet, sheet ∈ registry w -> shares_insertionPoint o sheet = false) ->
    childNodes (dom (insertStyle style o w)) headId
    = (without style (childNodes (dom w) headId) ++ [style])%list
    /\ log (insertStyle style o w) = (log w ++ [InsertBefore headId style None])%list.
Proof.
  intros style o w Hip Hnone.
  unfold insertStyle. rewrite (no_sharing_sheet o w Hnone).
  unfold findPlaceholder.
  destruct Hip as [Hip|Hip]; rewrite Hip; cbn [JS.truthy do_insertBefore emit dom log];
    (split; [|reflexivity]);
    rewrite childNodes_insertBefore, decide_True by reflexivity;
    apply insert_before_null.
Qed.

Lemma insertStyle_by_default_witness :
  childNodes (dom (insertStyle (element_node 2) {| index := 0; insertionPoint := None |}
                     marked_world)) headId
  = (without (element_node 2) (childNodes (dom marked_world) headId)
     ++ [element_node 2])%list
  /\ log (insertStyle (element_node 2) {| index := 0; insertionPoint := None |}
            marked_world)
     = (log marked_world ++ [InsertBefore headId (element_node 2) None])%list.
Proof.
  apply (insertStyle_by_default (element_node 2) {| index := 0; insertionPoint := None |}
           marked_world).
  - left. reflexivity.
  - intros sheet Hs. inversion Hs.
Defined.

(** *** Placement after the last attached sheet *)

Lemma find_last {A : Type} (f : A -> bool) (pre : list A) (x : A) (post : list A) :
  f x = true -> (forall y, y ∈ post -> f y = false) ->
  List.find f (rev (pre ++ x :: post)) = Some x.
Proof.
  intros Hx Hpost. rewrite rev_app_distr. cbn [rev]. rewrite <- app_assoc.
  apply find_first; [exact Hx|].
  intros y Hy. apply Hpost. apply list_elem_of_In, in_rev. now apply list_elem_of_In.
Qed.

(** Inserting before a node [prev] of the document puts the new node
    right before it. *)
Lemma insert_before_node (d : Dom) (p : nat) (prev style : Node) :
  parentNode d prev = Some p -> parentNode d style = None ->
  exists l1 c l2,
    same_node prev c = true
    /\ childNodes d p = (l1 ++ c :: l2)%list
    /\ childNodes (insertBefore p style (Some prev) d) p = (l1 ++ style :: c :: l2)%list.
Proof.
  intros Hprev Hstyle.
  destruct (split_at_first _ _ (parentNode_Some _ _ _ Hprev)) as (l1 & c & l2 & Hl & Hc & Hl1).
  exists l1, c, l2. split; [exact Hc|]. split; [exact Hl|].
  rewrite childNodes_insertBefore, decide_True by reflexivity.
  destruct (same_node prev style) eqn:Hsame.
  { rewrite (parentNode_same _ _ _ Hsame), Hstyle in Hprev. discriminate. }
  rewrite without_absent by (now apply parentNode_None).
  rewrite Hl. now apply insert_before_first.
Qed.

(** X19: When no attached sheet is higher, the neighbor is the attached sheet
    with the same insertion point that was registered last, whatever its
    index: the container is put before the next element sibling of that
    sheet's container, and at the end of the head when there is no such
    sibling and the insertion point is not a node.  No warning is
    emitted. *)
Theorem insertStyle_after_last_attached :
  forall (style : Node) (o : PriorityOptions) (w : World)
         (pre : list StyleSheet) (nb : StyleSheet) (post : list StyleSheet),
    registry w = (pre ++ nb :: post)%list ->
    (forall sheet, sheet ∈ registry w -> is_higher o sheet = false) ->
    shares_insertionPoint o nb = true ->
    (forall sheet, sheet ∈ post -> shares_insertionPoint o sheet = false) ->
    parentNode (dom w) style = None ->
    (forall (e : Node) (p : nat),
        nextElementSibling (dom w) (renderer_element nb) = Some e ->
        parentNode (dom w) e = Some p ->
        (exists l1 c l2,
            same_node e c = true
            /\ childNodes (dom w) p = (l1 ++ c :: l2)%list
            /\ childNodes (dom (insertStyle style o w)) p = (l1 ++ style :: c :: l2)%list)
        /\ log (insertStyle style o w) = (log w ++ [InsertBefore p style (Some e)])%list)
    /\ (nextElementSibling (dom w) (renderer_element nb) = None ->
        (forall node, insertionPoint o <> Some (IPNode node)) ->
        childNodes (dom (insertStyle style o w)) headId
        = (childNodes (dom w) headId ++ [style])%list
        /\ log (insertStyle style o w) = (log w ++ [InsertBefore headId style None])%list).
Proof.
  intros style o w pre nb post Hreg Hhigher Hnb Hpost Hstyle.
  assert (Hprev : findPrevNode o w
                  = (nextElementSibling (dom w) (renderer_element nb), w)).
  { unfold findPrevNode. rewrite Hreg at 1. rewrite length_app. cbn [length].
    replace (0 <? Z.of_nat (length pre + S (length post))) with true
      by (symmetry; apply Z.ltb_lt; lia).
    unfold findHigherSheet. rewrite (find_nowhere _ _ Hhigher).
    unfold findHighestSheet. rewrite Hreg, (find_last _ _ _ _ Hnb Hpost). reflexivity. }
  unfold insertStyle. rewrite Hprev. split.
  - intros e p He Hp. rewrite He, Hp. cbn [do_insertBefore emit dom log].
    split; [now apply insert_before_node | reflexivity].
  - intros Hnone Hip. rewrite Hnone.
    destruct (insertionPoint o) as [[marker|node]|]; [|now destruct (Hip node)|];
      cbn [do_insertBefore emit dom log]; (split; [|reflexivity]);
      rewrite childNodes_insertBefore, decide_True by reflexivity;
      rewrite without_absent by (now apply parentNode_None);
      apply insert_before_null.
Qed.

(** Two attached sheets without insertion point, the one with the higher
    index registered first, and a comment between their containers. *)
Definition late_low : StyleSheet := make_sheet true 1 None (element_node 2).
Definition early_high : StyleSheet := make_sheet true 5 None (element_node 1).
Definition mixed_world : World :=
  {| dom := {[ headId := [element_node 1; element_node 2; comment_node 7 "x";
                          element_node 8] ]};
     registry := [early_high; late_low]; log := [] |}.
Definition top_priority : PriorityOptions := {| index := 9; insertionPoint := None |}.

Lemma insertStyle_after_last_attached_witness :
  (exists l1 c l2,
      same_node (element_node 8) c = true
      /\ childNodes (dom mixed_world) headId = (l1 ++ c :: l2)%list
      /\ childNodes (dom (insertStyle (element_node 3) top_priority mixed_world)) headId
         = (l1 ++ element_node 3 :: c :: l2)%list)
  /\ log (insertStyle (element_node 3) top_priority mixed_world)
     = (log mixed_world ++ [InsertBefore headId (element_node 3) (Some (element_node 8))])%list.
Proof.
  destruct (insertStyle_after_last_attached (element_node 3) top_priority mixed_world
              [early_high] late_low []) as [H _]; try reflexivity.
  - intros sheet Hs.
    apply elem_of_cons in Hs as [->|Hs]; [reflexivity|].
    apply elem_of_cons in Hs as [->|Hs]; [reflexivity | inversion Hs].
  - intros sheet Hs. inversion Hs.
  - apply (H (element_node 8) headId); reflexivity.
Defined.

(** The outcome on that document: the container goes after the comment
    that follows the container of the sheet registered last. *)
Example insertStyle_after_last_attached_outcome :
  childNodes (dom (insertStyle (element_node 3) top_priority mixed_world)) headId
  = [element_node 1; element_node 2; comment_node 7 "x"; element_node 3; element_node 8].
Proof. reflexivity. Qed.

(** *** Attach and detach *)

(** X20: Detaching right after attaching gives back every child list of the
    document; and when [attach] inserted nothing, the document is as it
    was and [detach] throws. *)
Theorem attach_then_detach :
  forall (eng : Engine) (r : DomRenderer) (w : World),
    parentNode (dom w) (element r) = None ->
    match detach (fst (attach eng r w)) (snd (attach eng r w)) with
    | Some (r2, w2) => forall p, childNodes (dom w2) p = childNodes (dom w) p
    | None => dom (snd (attach eng r w)) = dom w
    end.
Proof.
  intros eng r w Hp.
  assert (Hattach : element (fst (attach eng r w)) = element r
                    /\ (dom (snd (attach eng r w)) = dom w
                        \/ exists p ref, dom (snd (attach eng r w))
                                         = insertBefore p (element r) ref (dom w))).
  { unfold attach. rewrite Hp. destruct (sheet r) as [s|] eqn:Hs; [|now split; [|left]].
    destruct (hasInsertedRules r).
    - unfold deploy. rewrite Hs. cbn [fst snd element set_hasInsertedRules].
      split; [reflexivity|].
      apply (insertStyle_dom (element r) (options s)
               (emit (SetTextContent (element r) _) w)).
    - cbn [fst snd]. split; [reflexivity|]. apply (insertStyle_dom (element r) (options s) w). }
  destruct Hattach as [Hel Hdom]. unfold detach. rewrite Hel.
  destruct Hdom as [Hdom|(p0 & ref & Hdom)]; rewrite Hdom.
  - rewrite Hp. reflexivity.
  - destruct (parentNode (insertBefore p0 (element r) ref (dom w)) (element r))
      as [p1|] eqn:Hp1.
    + cbn [emit dom]. intros p.
      apply parentNode_Some in Hp1. rewrite childNodes_insertBefore in Hp1.
      destruct (decide (p0 = p1)) as [<-|Hne];
        [|rewrite without_removes in Hp1; discriminate].
      unfold removeChild. destruct (decide (p0 = p)) as [<-|Hne].
      * rewrite childNodes_insert, childNodes_insertBefore, decide_True by reflexivity.
        rewrite without_insert_before, without_idempotent.
        apply without_absent. now apply parentNode_None.
      * rewrite childNodes_insert_other by exact Hne.
        rewrite childNodes_insertBefore, decide_False by exact Hne.
        apply without_absent. now apply parentNode_None.
    + exfalso. pose proof (parentNode_None _ _ p0 Hp1) as Hno.
      rewrite childNodes_insertBefore, decide_True in Hno by reflexivity.
      rewrite insert_before_holds in Hno. discriminate.
Qed.

Lemma attach_then_detach_witness :
  childNodes (dom (snd (default (make_renderer sheet_4, priorities_world)
                          (detach (fst (attach toy_engine (make_renderer sheet_4)
                                          priorities_world))
                                  (snd (attach toy_engine (make_renderer sheet_4)
                                          priorities_world)))))) headId
  = childNodes (dom priorities_world) headId.
Proof.
  exact (attach_then_detach toy_engine (make_renderer sheet_4) priorities_world eq_refl
           headId).
Defined.

(** *** Native rules *)

Lemma native_insertRule_in_range (eng : Engine) (l : list CSSOMRule) (text : string)
    (i : Z) (c : CSSOMRule) :
  parseRule eng text = Some c -> 0 <= i <= Z.of_nat (length l) ->
  native_insertRule eng l text i
  = Some (take (Z.to_nat i) l ++ c :: drop (Z.to_nat i) l)%list.
Proof.
  intros Hc Hi. unfold native_insertRule. rewrite Hc.
  replace (0 <=? i) with true by (symmetry; apply Z.leb_le; lia).
  replace (i <=? Z.of_nat (length l)) with true by (symmetry; apply Z.leb_le; lia).
  reflexivity.
Qed.

Lemma native_insertRule_out_of_range (eng : Engine) (l : list CSSOMRule) (text : string)
    (i : Z) :
  i < 0 \/ Z.of_nat (length l) < i -> native_insertRule eng l text i = None.
Proof.
  intros Hi. unfold native_insertRule. destruct (parseRule eng text); [|reflexivity].
  destruct Hi as [Hi|Hi].
  - replace (0 <=? i) with false by (symmetry; apply Z.leb_gt; lia). reflexivity.
  - replace (i <=? Z.of_nat (length l)) with false by (symmetry; apply Z.leb_gt; lia).
    now rewrite andb_false_r.
Qed.

Lemma truthy_nonempty (s : string) : s <> "" -> JS.truthy s = true.
Proof. destruct s; [congruence | reflexivity]. Qed.

(** X21: [insertRule] returns [false] and leaves the renderer as it is in three
    cases: the rule serializes to the empty string (no warning, whatever
    the index); the engine refuses the text (one warning); the index is
    negative or beyond the rule count (one warning).  When it returns a
    native rule, the flag is set, nothing is reported, and the native rule
    list is one longer and holds the result. *)
Theorem insertRule_refusals :
  forall (eng : Engine) (rule : RuleList.Rule) (index : option Z)
         (r : DomRenderer) (w : World),
    let text := RuleList.toCss rule None in
    (text = "" -> insertRule eng rule index r w = (None, r, w))
    /\ (text <> "" -> parseRule eng text = None ->
        insertRule eng rule index r w
        = (None, r, emit (Warning (insertRule_warning text)) w))
    /\ (forall i, text <> "" -> index = Some i ->
        i < 0 \/ Z.of_nat (length (cssRules r)) < i ->
        insertRule eng rule index r w
        = (None, r, emit (Warning (insertRule_warning text)) w))
    /\ (forall c r' w', insertRule eng rule index r w = (Some c, r', w') ->
        hasInsertedRules r' = true /\ w' = w
        /\ length (cssRules r') = S (length (cssRules r))
        /\ c ∈ cssRules r').
Proof.
  intros eng rule index r w text. unfold insertRule. fold text.
  split; [|split; [|split]].
  - intros ->. reflexivity.
  - intros Hne Hparse. apply truthy_nonempty in Hne.
    rewrite Hne. cbn [negb]. unfold native_insertRule. now rewrite Hparse.
  - intros i Hne -> Hi. apply truthy_nonempty in Hne. rewrite Hne. cbn [negb].
    assert (Hi0 : (i =? 0) = false) by (apply Z.eqb_neq; lia).
    rewrite Hi0, native_insertRule_out_of_range by exact Hi. reflexivity.
  - intros c r' w'. destruct (negb (JS.truthy text)); [discriminate|].
    set (i := match index with
              | Some i => if i =? 0 then Z.of_nat (length (cssRules r)) else i
              | None => Z.of_nat (length (cssRules r))
              end).
    unfold native_insertRule. destruct (parseRule eng text) as [c0|]; [|discriminate].
    destruct ((0 <=? i) && (i <=? Z.of_nat (length (cssRules r)))) eqn:Hrange;
      [|discriminate].
    apply andb_true_iff in Hrange as [H0 H1].
    apply Z.leb_le in H0. apply Z.leb_le in H1.
    intros H. injection H as Hc <- <-. cbn.
    split; [reflexivity|]. split; [reflexivity|]. split.
    + rewrite length_app, length_take. cbn [length]. rewrite length_drop. lia.
    + apply list_elem_of_lookup_2 in Hc. exact Hc.
Qed.

(** An engine that refuses every text. *)
Definition refusing_engine : Engine :=
  {| parseSheet := fun _ => []; parseRule := fun _ => None |}.

Definition empty_rule : RuleList.Rule :=
  RuleList.createRule 5 "e" (RuleListFacts.opaque "") RuleListFacts.no_options.

Lemma insertRule_refusals_witness :
  insertRule toy_engine empty_rule (Some 9) two_rules priorities_world
  = (None, two_rules, priorities_world)
  /\ insertRule refusing_engine RuleListFacts.rule_a None two_rules priorities_world
     = (None, two_rules,
        emit (Warning (insertRule_warning "color:red")) priorities_world)
  /\ insertRule toy_engine RuleListFacts.rule_a (Some 3) two_rules priorities_world
     = (None, two_rules,
        emit (Warning (insertRule_warning "color:red")) priorities_world)
  /\ (hasInsertedRules
        (snd (fst (insertRule toy_engine RuleListFacts.rule_a (Some 1) two_rules
                     priorities_world))) = true
      /\ snd (insertRule toy_engine RuleListFacts.rule_a (Some 1) two_rules priorities_world)
         = priorities_world
      /\ length (cssRules
                   (snd (fst (insertRule toy_engine RuleListFacts.rule_a (Some 1) two_rules
                                priorities_world))))
         = S (length (cssRules two_rules))
      /\ native 0 "color:red"
         ∈ cssRules (snd (fst (insertRule toy_engine RuleListFacts.rule_a (Some 1)
                                 two_rules priorities_world)))).
Proof.
  split; [|split; [|split]].
  - destruct (insertRule_refusals toy_engine empty_rule (Some 9) two_rules priorities_world)
      as (H & _).
    exact (H eq_refl).
  - destruct (insertRule_refusals refusing_engine RuleListFacts.rule_a None two_rules
                priorities_world) as (_ & H & _).
    apply H; [discriminate | reflexivity].
  - destruct (insertRule_refusals toy_engine RuleListFacts.rule_a (Some 3) two_rules
                priorities_world) as (_ & _ & H & _).
    apply (H 3); [discriminate | reflexivity |]. right. change (2 < 3). lia.
  - destruct (insertRule_refusals toy_engine RuleListFacts.rule_a (Some 1) two_rules
                priorities_world) as (_ & _ & _ & H).
    apply (H (native 0 "color:red")). reflexivity.
Defined.

(** X22: With a text that the engine accepts and an index from 1 to the rule
    count, [insertRule] puts the native rule at that position, the rules
    from there on moving up by one, and returns it. *)
Theorem insertRule_at_index :
  forall (eng : Engine) (rule : RuleList.Rule) (i : Z) (c : CSSOMRule)
         (r : DomRenderer) (w : World),
    RuleList.toCss rule None <> "" ->
    parseRule eng (RuleList.toCss rule None) = Some c ->
    1 <= i <= Z.of_nat (length (cssRules r)) ->
    insertRule eng rule (Some i) r w
    = (Some c,
       set_hasInsertedRules true
         (set_cssRules (take (Z.to_nat i) (cssRules r)
                        ++ c :: drop (Z.to_nat i) (cssRules r))%list r),
       w)
    /\ (take (Z.to_nat i) (cssRules r) ++ c :: drop (Z.to_nat i) (cssRules r))%list
       !! Z.to_nat i = Some c.
Proof.
  intros eng rule i c r w Hne Hparse Hi.
  assert (Hlookup : (take (Z.to_nat i) (cssRules r) ++ c :: drop (Z.to_nat i) (cssRules r))%list
                    !! Z.to_nat i = Some c).
  { rewrite lookup_app_r by (rewrite length_take; lia).
    rewrite length_take.
    replace (Z.to_nat i - Z.to_nat i `min` length (cssRules r))%nat with 0%nat by lia.
    reflexivity. }
  split; [|exact Hlookup].
  unfold insertRule. rewrite (truthy_nonempty _ Hne). cbn [negb].
  assert (Hi0 : (i =? 0) = false) by (apply Z.eqb_neq; lia). rewrite Hi0.
  rewrite (native_insertRule_in_range eng _ _ i c Hparse) by lia.
  now rewrite Hlookup.
Qed.

Lemma insertRule_at_index_witness :
  insertRule toy_engine RuleListFacts.rule_a (Some 1) two_rules priorities_world
  = (Some (native 0 "color:red"),
     set_hasInsertedRules true
       (set_cssRules [native 1 ".x {}"; native 0 "color:red"; native 2 ".y {}"] two_rules),
     priorities_world).
Proof.
  refine (proj1 (insertRule_at_index toy_engine RuleListFacts.rule_a 1
                   (native 0 "color:red") two_rules priorities_world _ eq_refl _)).
  - discriminate.
  - change (1 <= 1 <= 2). lia.
Defined.

(** X23: [deleteRule] returns [false] and changes nothing when no native rule
    of the list is the given rule object; otherwise it returns [true] and
    removes the first native rule that is that object, the others keeping
    their order. *)
Theorem deleteRule_removes_first :
  forall (cssRule : CSSOMRule) (r : DomRenderer),
    ((forall c, c ∈ cssRules r -> cid c <> cid cssRule) ->
     deleteRule cssRule r = (false, r))
    /\ (forall c, c ∈ cssRules r -> cid c = cid cssRule ->
        exists l1 c' l2,
          cssRules r = (l1 ++ c' :: l2)%list
          /\ cid c' = cid cssRule
          /\ (forall x, x ∈ l1 -> cid x <> cid cssRule)
          /\ deleteRule cssRule r = (true, set_cssRules (l1 ++ l2)%list r)).
Proof.
  intros cssRule r. unfold deleteRule, indexOf.
  destruct (RuleListMore.find_index_from_spec (same_cssRule cssRule) (cssRules r) 0)
    as [[Hnone Hall]|(j & x & Hj & Hl & Hx & Hfirst)].
  - split.
    + intros _. now rewrite Hnone.
    + intros c Hc Hcid. specialize (Hall c Hc).
      unfold same_cssRule in Hall. rewrite Hcid, Nat.eqb_refl in Hall. discriminate.
  - rewrite Hj, Z.add_0_l. split.
    + intros Hall. exfalso. apply (Hall x); [now apply list_elem_of_lookup_2 in Hl|].
      unfold same_cssRule in Hx. apply Nat.eqb_eq in Hx. congruence.
    + intros _ _ _. exists (take j (cssRules r)), x, (drop (S j) (cssRules r)).
      split; [symmetry; now apply take_drop_middle|].
      split; [unfold same_cssRule in Hx; apply Nat.eqb_eq in Hx; congruence|].
      split.
      * intros y Hy Heq. apply list_elem_of_lookup in Hy as [j' Hy].
        pose proof (lookup_lt_Some _ _ _ Hy) as Hlt. rewrite length_take in Hlt.
        rewrite lookup_take_lt in Hy by lia.
        assert (Hfalse : same_cssRule cssRule y = false)
          by (apply (Hfirst j' y); [lia | exact Hy]).
        unfold same_cssRule in Hfalse. rewrite Heq, Nat.eqb_refl in Hfalse. discriminate.
      * replace (Z.of_nat j =? -1) with false by (symmetry; apply Z.eqb_neq; lia).
        now rewrite Nat2Z.id.
Qed.

Lemma deleteRule_removes_first_witness :
  deleteRule (native 9 "") two_rules = (false, two_rules)
  /\ exists l1 c' l2,
       cssRules two_rules = (l1 ++ c' :: l2)%list
       /\ cid c' = cid (native 2 "")
       /\ (forall x, x ∈ l1 -> cid x <> cid (native 2 ""))
       /\ deleteRule (native 2 "") two_rules = (true, set_cssRules (l1 ++ l2)%list two_rules).
Proof.
  split.
  - destruct (deleteRule_removes_first (native 9 "") two_rules) as [H _].
    apply H. intros c Hc.
    apply elem_of_cons in Hc as [->|Hc]; [discriminate|].
    apply elem_of_cons in Hc as [->|Hc]; [discriminate | inversion Hc].
  - destruct (deleteRule_removes_first (native 2 "") two_rules) as [_ H].
    apply (H (native 2 ".y {}")); [|reflexivity].
    apply list_elem_of_further, list_elem_of_here.
Defined.

Lemma find_index_from_app {A : Type} (same : A -> bool) (l1 l2 : list A) (x : A) (k : Z) :
  (forall y, y ∈ l1 -> same y = false) -> same x = true ->
  JS.find_index_from same k (l1 ++ x :: l2) = k + Z.of_nat (length l1).
Proof.
  revert k. induction l1 as [|y l1 IH]; intros k Hl1 Hx; cbn [app JS.find_index_from length].
  - rewrite Hx. lia.
  - rewrite (Hl1 y) by apply list_elem_of_here.
    rewrite IH; [lia | | exact Hx].
    intros z Hz. apply Hl1. now apply list_elem_of_further.
Qed.

(** X24: Deleting the native rule that [insertRule] has just returned gives
    back the native rule list as it was, provided the new native rule is
    an object that was not in the list; the flag stays set. *)
Theorem insertRule_then_deleteRule :
  forall (eng : Engine) (rule : RuleList.Rule) (index : option Z)
         (r r1 : DomRenderer) (w w1 : World) (c : CSSOMRule),
    insertRule eng rule index r w = (Some c, r1, w1) ->
    (forall x, x ∈ cssRules r -> cid x <> cid c) ->
    deleteRule c r1 = (true, set_hasInsertedRules true r).
Proof.
  intros eng rule index r r1 w w1 c Hins Hfresh. unfold insertRule in Hins.
  destruct (negb (JS.truthy (RuleList.toCss rule None))); [discriminate|].
  set (i := match index with
            | Some i => if i =? 0 then Z.of_nat (length (cssRules r)) else i
            | None => Z.of_nat (length (cssRules r))
            end) in Hins.
  unfold native_insertRule in Hins.
  destruct (parseRule eng (RuleList.toCss rule None)) as [c0|]; [|discriminate].
  destruct ((0 <=? i) && (i <=? Z.of_nat (length (cssRules r)))) eqn:Hrange; [|discriminate].
  apply andb_true_iff in Hrange as [H0 H1].
  apply Z.leb_le in H0. apply Z.leb_le in H1.
  injection Hins as Hc <- _.
  assert (Hlen : length (take (Z.to_nat i) (cssRules r)) = Z.to_nat i)
    by (rewrite length_take; lia).
  rewrite lookup_app_r in Hc by lia.
  rewrite Hlen, Nat.sub_diag in Hc. cbn in Hc. injection Hc as ->.
  unfold deleteRule, indexOf. cbn [cssRules set_hasInsertedRules set_cssRules].
  rewrite find_index_from_app.
  - rewrite Z.add_0_l, Hlen.
    replace (Z.of_nat (Z.to_nat i) =? -1) with false by (symmetry; apply Z.eqb_neq; lia).
    rewrite Nat2Z.id.
    rewrite take_app_length' by (symmetry; exact Hlen).
    change (take (Z.to_nat i) (cssRules r) ++ c :: drop (Z.to_nat i) (cssRules r))%list
      with (take (Z.to_nat i) (cssRules r) ++ [c] ++ drop (Z.to_nat i) (cssRules r))%list.
    rewrite app_assoc, drop_app_length'
      by (rewrite length_app, Hlen; cbn; lia).
    rewrite take_drop. reflexivity.
  - intros y Hy. apply Nat.eqb_neq. intros Heq.
    apply (Hfresh y); [|congruence].
    apply list_elem_of_lookup in Hy as [j Hy].
    apply lookup_take_Some in Hy as [Hy _]. now apply list_elem_of_lookup_2 in Hy.
  - unfold same_cssRule. apply Nat.eqb_refl.
Qed.

Lemma insertRule_then_deleteRule_witness :
  deleteRule (native 0 "color:red")
    (snd (fst (insertRule toy_engine RuleListFacts.rule_a (Some 1) two_rules
                 priorities_world)))
  = (true, set_hasInsertedRules true two_rules).
Proof.
  apply (insertRule_then_deleteRule toy_engine RuleListFacts.rule_a (Some 1) two_rules _
           priorities_world priorities_world (native 0 "color:red")).
  - reflexivity.
  - intros x Hx.
    apply elem_of_cons in Hx as [->|Hx]; [discriminate|].
    apply elem_of_cons in Hx as [->|Hx]; [discriminate | inversion Hx].
Defined.

Lemma insertRule_zero_is_append (eng : Engine) (rule : RuleList.Rule)
    (r : DomRenderer) (w : World) (c : CSSOMRule) :
  RuleList.toCss rule None <> "" ->
  parseRule eng (RuleList.toCss rule None) = Some c ->
  insertRule eng rule (Some 0) r w
  = (Some c, set_hasInsertedRules true (set_cssRules (cssRules r ++ [c])%list r), w).
Proof.
  intros Hne Hparse.
  unfold insertRule. rewrite (truthy_nonempty _ Hne). cbn [negb Z.eqb].
  rewrite (native_insertRule_in_range eng _ _ _ c Hparse) by lia.
  rewrite Nat2Z.id, take_ge, drop_ge by lia.
  rewrite lookup_app_r by lia. rewrite Nat.sub_diag. reflexivity.
Qed.

Lemma indexOf_range (cssRule : CSSOMRule) (r : DomRenderer) :
  indexOf cssRule r = -1 \/ 0 <= indexOf cssRule r < Z.of_nat (length (cssRules r)).
Proof.
  unfold indexOf.
  destruct (RuleListMore.find_index_from_spec (same_cssRule cssRule) (cssRules r) 0)
    as [[Hnone _]|(j & x & Hj & Hl & _)]; [now left|].
  right. apply lookup_lt_Some in Hl. lia.
Qed.

Lemma native_deleteRule_in_range (l : list CSSOMRule) (i : Z) :
  0 <= i < Z.of_nat (length l) ->
  native_deleteRule l i = Some (take (Z.to_nat i) l ++ drop (S (Z.to_nat i)) l)%list.
Proof.
  intros Hi. unfold native_deleteRule.
  replace (0 <=? i) with true by (symmetry; apply Z.leb_le; lia).
  replace (i <? Z.of_nat (length l)) with true by (symmetry; apply Z.ltb_lt; lia).
  reflexivity.
Qed.

(** X25: What [replaceRule] does when the new rule has a text that the engine
    accepts.  For an old native rule at a position from 1 on, the new
    native rule is inserted at that position and is the one that the
    following [deleteRule] removes: the native rule list is as before and
    the result is a native rule that is not in it.  For an old native rule
    at position 0, the new one goes to the end and the old one is
    removed.  For an old native rule that is not in the list, a warning is
    emitted and the call throws.  When the new rule serializes to the
    empty string, the old native rule is removed and the result is
    [false]. *)
Theorem replaceRule_outcomes :
  forall (eng : Engine) (cssRule : CSSOMRule) (rule : RuleList.Rule)
         (r : DomRenderer) (w : World),
    let text := RuleList.toCss rule None in
    (forall c, text <> "" -> parseRule eng text = Some c ->
       1 <= indexOf cssRule r ->
       replaceRule eng cssRule rule r w = (Some (Some c), set_hasInsertedRules true r, w))
    /\ (forall c, text <> "" -> parseRule eng text = Some c ->
        indexOf cssRule r = 0 ->
        replaceRule eng cssRule rule r w
        = (Some (Some c),
           set_hasInsertedRules true (set_cssRules (drop 1 (cssRules r) ++ [c])%list r),
           w))
    /\ (text <> "" -> indexOf cssRule r = -1 ->
        replaceRule eng cssRule rule r w
        = (None, r, emit (Warning (insertRule_warning text)) w))
    /\ (text = "" -> 0 <= indexOf cssRule r ->
        replaceRule eng cssRule rule r w
        = (Some None,
           set_cssRules (take (Z.to_nat (indexOf cssRule r)) (cssRules r)
                         ++ drop (S (Z.to_nat (indexOf cssRule r))) (cssRules r))%list r,
           w)).
Proof.
  intros eng cssRule rule r w text.
  pose proof (indexOf_range cssRule r) as Hrange.
  unfold replaceRule. set (i := indexOf cssRule r) in *.
  split; [|split; [|split]].
  - intros c Hne Hparse Hi.
    destruct (insertRule_at_index eng rule i c r w Hne Hparse) as [Hins Hlookup]; [lia|].
    rewrite Hins. cbn [cssRules set_hasInsertedRules set_cssRules].
    assert (Hlen : length (take (Z.to_nat i) (cssRules r)) = Z.to_nat i)
      by (rewrite length_take; lia).
    rewrite native_deleteRule_in_range
      by (rewrite length_app, Hlen; cbn [length]; rewrite length_drop; lia).
    rewrite take_app_length' by (symmetry; exact Hlen).
    change (take (Z.to_nat i) (cssRules r) ++ c :: drop (Z.to_nat i) (cssRules r))%list
      with (take (Z.to_nat i) (cssRules r) ++ [c] ++ drop (Z.to_nat i) (cssRules r))%list.
    rewrite app_assoc, drop_app_length' by (rewrite length_app, Hlen; cbn; lia).
    rewrite take_drop. reflexivity.
  - intros c Hne Hparse Hi. rewrite Hi.
    rewrite (insertRule_zero_is_append eng rule r w c Hne Hparse).
    cbn [cssRules set_hasInsertedRules set_cssRules].
    rewrite native_deleteRule_in_range by (rewrite length_app; cbn [length]; lia).
    cbn [Z.to_nat take app]. rewrite drop_app_le by lia. reflexivity.
  - intros Hne Hi. rewrite Hi.
    destruct (insertRule_refusals eng rule (Some (-1)) r w) as (_ & _ & Hout & _).
    rewrite (Hout (-1) Hne eq_refl) by lia. reflexivity.
  - intros Hempty Hi.
    destruct (insertRule_refusals eng rule (Some i) r w) as (Hnone & _).
    rewrite (Hnone Hempty).
    rewrite native_deleteRule_in_range by lia. reflexivity.
Qed.

Lemma replaceRule_outcomes_witness :
  replaceRule toy_engine (native 2 "") RuleListFacts.rule_a two_rules priorities_world
  = (Some (Some (native 0 "color:red")), set_hasInsertedRules true two_rules,
     priorities_world)
  /\ replaceRule toy_engine (native 1 "") RuleListFacts.rule_a two_rules priorities_world
     = (Some (Some (native 0 "color:red")),
        set_hasInsertedRules true
          (set_cssRules [native 2 ".y {}"; native 0 "color:red"] two_rules),
        priorities_world)
  /\ replaceRule toy_engine (native 9 "") RuleListFacts.rule_a two_rules priorities_world
     = (None, two_rules, emit (Warning (insertRule_warning "color:red")) priorities_world)
  /\ replaceRule toy_engine (native 1 "") empty_rule two_rules priorities_world
     = (Some None, set_cssRules [native 2 ".y {}"] two_rules, priorities_world).
Proof.
  split; [|split; [|split]].
  - destruct (replaceRule_outcomes toy_engine (native 2 "") RuleListFacts.rule_a two_rules
                priorities_world) as (H & _).
    apply H; [discriminate | reflexivity |]. change (1 <= 1). lia.
  - destruct (replaceRule_outcomes toy_engine (native 1 "") RuleListFacts.rule_a two_rules
                priorities_world) as (_ & H & _).
    apply H; [discriminate | reflexivity | reflexivity].
  - destruct (replaceRule_outcomes toy_engine (native 9 "") RuleListFacts.rule_a two_rules
                priorities_world) as (_ & _ & H & _).
    apply H; [discriminate | reflexivity].
  - destruct (replaceRule_outcomes toy_engine (native 1 "") empty_rule two_rules
                priorities_world) as (_ & _ & _ & H).
    apply H; [reflexivity|]. change (0 <= 0). lia.
Defined.

End DomRendererMore.
